(** * uioc: the IoC container of src/main.js

    A shallow embedding of the registration path ([addComponent],
    [createComponent], [createCreator], [createAnonymousComponent],
    [transferAnonymousComponents]) and of the asynchronous resolution path
    ([getComponent], [loadComponentModules], [createInstances], [injectDeps],
    [injectPropDependencies], [injectSetterDependencies], [setProperty]).

    JavaScript objects that the code mutates through several references
    (component records, dependency configs, [args] arrays, [properties]
    maps) live in a store and are named by their location. Closures are
    kept in defunctionalised form, the variables they capture in
    activation records. *)

From Stdlib Require Import String Ascii ZArith List Lia Bool.
From stdpp Require Import base option list gmap strings.
Import ListNotations.

Local Open Scope Z_scope.
Local Open Scope nat_scope.

(** ** Data model *)

(** Locations in the store. *)
Abbreviation loc := nat (only parsing).

(** The values a [creator] slot can hold: nothing, a member name to be
    looked up in the backing module, a function, or a module object. *)
Inductive creatorv :=
| CrNull
| CrUndef
| CrStr (s : string)
| CrFun (f : jsfun)
| CrMod (m : nat)
with jsfun :=
| FUser (n : nat)
| FModule (m : nat)
| FMember (m : nat) (name : string)
| FModuleFactory (method : creatorv) (m : nat)
| FNew (c : creatorv).

(** A loaded AMD module: possibly callable, with named members. *)
Record modval := {
  mod_id : nat;
  mod_callable : bool;
  mod_members : list (string * creatorv)
}.

Inductive literal :=
| LUndef
| LNull
| LBool (b : bool)
| LNum (z : Z)
| LStr (s : string).

(** A DependencyConfig: a literal, or a reference to a config object. *)
Inductive value :=
| VLit (l : literal)
| VObj (l : loc).

(** A config object (ComponentConfig mixed with [$ref], [$import], [id]);
    [None] is an absent own property. *)
Record config := {
  c_ref : option string;
  c_import : option string;
  c_id : option string;
  c_creator : option creatorv;
  c_scope : option string;
  c_args : option loc;
  c_properties : option loc;
  c_module : option string;
  c_isFactory : option bool;
  c_auto : option bool
}.

(** The record built by [createComponent]. *)
Record component := {
  id : string;
  args : loc;
  properties : loc;
  anonyDeps : option (list string);
  argDeps : option (list string);
  propDeps : option (list string);
  setterDeps : option (list string);
  scope : string;
  creator : creatorv;
  module : option string;
  isFactory : bool;
  auto : bool;
  instance : option nat
}.

(** The container: [this.components] and the store of the objects
    reachable from it; [warnings] collects the calls of [u.warn]. *)
Record ioc := {
  components : gmap string loc;
  comps : list component;
  cfgs : list config;
  arrs : list (list value);
  objs : list (list (string * value));
  warnings : list string
}.

Definition ANONY_PREFIX : string := "^uioc-".

(** [this.components[id]] with [id] an object: the property key is the
    string conversion of a plain object. *)
Definition OBJECT_KEY : string := "[object Object]".

Inductive error :=
| ConfigError (importId : string)
| TypeError (what : string).

Inductive outcome (A : Type) :=
| Ok (a : A) (st : ioc)
| Throw (e : error) (st : ioc)
| OutOfFuel.
Arguments Ok {A} a st.
Arguments Throw {A} e st.
Arguments OutOfFuel {A}.

Definition M (A : Type) := ioc -> outcome A.

Definition ret {A} (a : A) : M A := fun st => Ok a st.

Definition bind {A B} (m : M A) (k : A -> M B) : M B :=
  fun st =>
    match m st with
    | Ok a st' => k a st'
    | Throw e st' => Throw e st'
    | OutOfFuel => OutOfFuel
    end.

Notation "'do' x <- m ; k" := (bind m (fun x => k))
  (at level 10, x name, m at level 100, k at level 200).
Notation "'do_' m ; k" := (bind m (fun _ => k))
  (at level 10, m at level 100, k at level 200).

Definition throw {A} (e : error) : M A := fun st => Throw e st.
Definition get : M ioc := fun st => Ok st st.
Definition put (st : ioc) : M unit := fun _ => Ok tt st.

Definition set_components (f : gmap string loc -> gmap string loc) (st : ioc) : ioc :=
  {| components := f (components st); comps := comps st; cfgs := cfgs st;
     arrs := arrs st; objs := objs st; warnings := warnings st |}.
Definition set_comps (f : list component -> list component) (st : ioc) : ioc :=
  {| components := components st; comps := f (comps st); cfgs := cfgs st;
     arrs := arrs st; objs := objs st; warnings := warnings st |}.
Definition set_cfgs (f : list config -> list config) (st : ioc) : ioc :=
  {| components := components st; comps := comps st; cfgs := f (cfgs st);
     arrs := arrs st; objs := objs st; warnings := warnings st |}.
Definition set_arrs (f : list (list value) -> list (list value)) (st : ioc) : ioc :=
  {| components := components st; comps := comps st; cfgs := cfgs st;
     arrs := f (arrs st); objs := objs st; warnings := warnings st |}.
Definition set_objs (f : list (list (string * value)) -> list (list (string * value)))
    (st : ioc) : ioc :=
  {| components := components st; comps := comps st; cfgs := cfgs st;
     arrs := arrs st; objs := f (objs st); warnings := warnings st |}.
Definition set_warnings (f : list string -> list string) (st : ioc) : ioc :=
  {| components := components st; comps := comps st; cfgs := cfgs st;
     arrs := arrs st; objs := objs st; warnings := f (warnings st) |}.

(** Reading a location that holds no object of the expected kind is the
    TypeError JavaScript raises on a property access of [undefined]. *)
Definition deref {A} (what : string) (sel : ioc -> list A) (l : loc) : M A :=
  fun st =>
    match sel st !! l with
    | Some a => Ok a st
    | None => Throw (TypeError what) st
    end.

Definition read_comp : loc -> M component := deref "component" comps.
Definition read_cfg : loc -> M config := deref "config" cfgs.
Definition read_arr : loc -> M (list value) := deref "array" arrs.
Definition read_obj : loc -> M (list (string * value)) := deref "object" objs.

Definition write_comp (l : loc) (c : component) : M unit :=
  fun st => Ok tt (set_comps (fun h => <[l := c]> h) st).
Definition write_cfg (l : loc) (c : config) : M unit :=
  fun st => Ok tt (set_cfgs (fun h => <[l := c]> h) st).

Definition alloc_comp (c : component) : M loc :=
  fun st => Ok (length (comps st)) (set_comps (fun h => h ++ [c]) st).
Definition alloc_cfg (c : config) : M loc :=
  fun st => Ok (length (cfgs st)) (set_cfgs (fun h => h ++ [c]) st).
Definition alloc_arr (a : list value) : M loc :=
  fun st => Ok (length (arrs st)) (set_arrs (fun h => h ++ [a]) st).
Definition alloc_obj (o : list (string * value)) : M loc :=
  fun st => Ok (length (objs st)) (set_objs (fun h => h ++ [o]) st).

(** [args[i] = v] on an existing index. *)
Definition arr_store (a : loc) (i : nat) (v : value) : M unit :=
  fun st => Ok tt (set_arrs (fun h =>
    match h !! a with
    | Some xs => <[a := <[i := v]> xs]> h
    | None => h
    end) st).

(** Association lists for objects enumerated by [for ... in]. *)
Fixpoint assoc_get {A} (k : string) (o : list (string * A)) : option A :=
  match o with
  | [] => None
  | (k', v) :: o' => if String.eqb k k' then Some v else assoc_get k o'
  end.

Fixpoint assoc_set {A} (k : string) (v : A) (o : list (string * A)) : list (string * A) :=
  match o with
  | [] => [(k, v)]
  | (k', v') :: o' =>
      if String.eqb k k' then (k, v) :: o' else (k', v') :: assoc_set k v o'
  end.

(** [props[k] = v]. *)
Definition obj_store (o : loc) (k : string) (v : value) : M unit :=
  fun st => Ok tt (set_objs (fun h =>
    match h !! o with
    | Some kv => <[o := assoc_set k v kv]> h
    | None => h
    end) st).

(** ** The utility layer and the parser *)

(** Modelled from the spec: [u.warn], the warning log of the utility layer. *)
Definition warn (msg : string) : M unit :=
  fun st => Ok tt (set_warnings (fun w => w ++ [msg]) st).

(** Modelled from the spec: [u.hasImport], true of a value shaped as
    [{ $import: id, ...overrides }]. *)
Definition hasImport (st : ioc) (v : value) : option (loc * string) :=
  match v with
  | VObj l =>
      match cfgs st !! l with
      | Some c => match c_import c with Some i => Some (l, i) | None => None end
      | None => None
      end
  | VLit _ => None
  end.

(** Modelled from the spec: [u.hasReference], true of a value shaped as
    [{ $ref: id }]. *)
Definition hasReference (st : ioc) (v : value) : option string :=
  match v with
  | VObj l => match cfgs st !! l with Some c => c_ref c | None => None end
  | VLit _ => None
  end.

(** Modelled from the spec: [u.merge], the shallow merge of the override
    config onto a copy of the imported definition; only the fields that
    [createComponent] reads are kept. *)
Definition merge (refConfig : component) (conf : config) : config :=
  {| c_ref := c_ref conf;
     c_import := c_import conf;
     c_id := match c_id conf with Some i => Some i | None => Some (id refConfig) end;
     c_creator := match c_creator conf with
                  | Some c => Some c
                  | None => Some (creator refConfig)
                  end;
     c_scope := match c_scope conf with Some s => Some s | None => Some (scope refConfig) end;
     c_args := match c_args conf with Some a => Some a | None => Some (args refConfig) end;
     c_properties := match c_properties conf with
                     | Some p => Some p
                     | None => Some (properties refConfig)
                     end;
     c_module := match c_module conf with Some m => Some m | None => module refConfig end;
     c_isFactory := match c_isFactory conf with
                    | Some b => Some b
                    | None => Some (isFactory refConfig)
                    end;
     c_auto := match c_auto conf with Some b => Some b | None => Some (auto refConfig) end |}.

(** Modelled from the spec: [parser.getDepsFromArgs], the ids of the
    [$ref] entries of an argument list, in order. *)
Definition getDepsFromArgs (st : ioc) (a : loc) : list string :=
  match arrs st !! a with
  | Some xs => omap (hasReference st) xs
  | None => []
  end.

(** Modelled from the spec: [parser.getDepsFromProperties], the ids of the
    [$ref] entries of a property map, in enumeration order. *)
Definition getDepsFromProperties (st : ioc) (p : loc) : list string :=
  match objs st !! p with
  | Some kv => omap (fun e => hasReference st (snd e)) kv
  | None => []
  end.

(** ** Registration *)

Definition set_creator (c : creatorv) (x : component) : component :=
  {| id := id x; args := args x; properties := properties x;
     anonyDeps := anonyDeps x; argDeps := argDeps x; propDeps := propDeps x;
     setterDeps := setterDeps x; scope := scope x; creator := c;
     module := module x; isFactory := isFactory x; auto := auto x;
     instance := instance x |}.
Definition set_anonyDeps (d : option (list string)) (x : component) : component :=
  {| id := id x; args := args x; properties := properties x;
     anonyDeps := d; argDeps := argDeps x; propDeps := propDeps x;
     setterDeps := setterDeps x; scope := scope x; creator := creator x;
     module := module x; isFactory := isFactory x; auto := auto x;
     instance := instance x |}.
Definition set_argDeps (d : option (list string)) (x : component) : component :=
  {| id := id x; args := args x; properties := properties x;
     anonyDeps := anonyDeps x; argDeps := d; propDeps := propDeps x;
     setterDeps := setterDeps x; scope := scope x; creator := creator x;
     module := module x; isFactory := isFactory x; auto := auto x;
     instance := instance x |}.
Definition set_propDeps (d : option (list string)) (x : component) : component :=
  {| id := id x; args := args x; properties := properties x;
     anonyDeps := anonyDeps x; argDeps := argDeps x; propDeps := d;
     setterDeps := setterDeps x; scope := scope x; creator := creator x;
     module := module x; isFactory := isFactory x; auto := auto x;
     instance := instance x |}.
Definition set_setterDeps (d : option (list string)) (x : component) : component :=
  {| id := id x; args := args x; properties := properties x;
     anonyDeps := anonyDeps x; argDeps := argDeps x; propDeps := propDeps x;
     setterDeps := d; scope := scope x; creator := creator x;
     module := module x; isFactory := isFactory x; auto := auto x;
     instance := instance x |}.
Definition set_instance (i : option nat) (x : component) : component :=
  {| id := id x; args := args x; properties := properties x;
     anonyDeps := anonyDeps x; argDeps := argDeps x; propDeps := propDeps x;
     setterDeps := setterDeps x; scope := scope x; creator := creator x;
     module := module x; isFactory := isFactory x; auto := auto x;
     instance := i |}.

(** JavaScript truthiness of a creator slot. *)
Definition truthy_creator (c : creatorv) : bool :=
  match c with
  | CrNull | CrUndef => false
  | CrStr s => negb (String.eqb s "")
  | CrFun _ | CrMod _ => true
  end.

(** [typeof c === 'function'] *)
Definition is_function (c : creatorv) : bool :=
  match c with CrFun _ => true | _ => false end.

(** A module handed over by the loader, seen as a value. *)
Definition module_value (m : option modval) : creatorv :=
  match m with
  | None => CrUndef
  | Some mv => if mod_callable mv then CrFun (FModule (mod_id mv)) else CrMod (mod_id mv)
  end.

(** [module[name]] *)
Definition member (mv : modval) (name : string) : creatorv :=
  match assoc_get name (mod_members mv) with
  | Some c => c
  | None => CrUndef
  end.

Definition is_static (x : component) : bool := String.eqb (scope x) "static".

(** [createCreator(component, module)] *)
Definition createCreator (l : loc) (module : option modval) : M unit :=
  do component <- read_comp l;
  let creator0 :=
    if truthy_creator (creator component) then creator component
    else module_value module in
  do_ write_comp l (set_creator creator0 component);
  do creator1 <-
    match creator0 with
    | CrStr name =>
        match module with
        | None => throw (TypeError "module")
        | Some mv =>
            let method := member mv name in
            let moduleFactory := CrFun (FModuleFactory method (mod_id mv)) in
            let c := if negb (isFactory component) || is_static component
                     then method else moduleFactory in
            do_ write_comp l (set_creator c component);
            ret c
        end
    | _ => ret creator0
    end;
  if negb (isFactory component) && negb (is_static component)
  then write_comp l (set_creator (CrFun (FNew creator1)) component)
  else ret tt.

(** [x || d] on strings *)
Definition str_or (x : option string) (d : string) : string :=
  match x with
  | Some s => if String.eqb s "" then d else s
  | None => d
  end.

(** [createComponent(id, config)] *)
Definition createComponent (k : string) (conf : loc) : M loc :=
  do cfg <- read_cfg conf;
  do a <- match c_args cfg with Some a => ret a | None => alloc_arr [] end;
  do p <- match c_properties cfg with Some p => ret p | None => alloc_obj [] end;
  let component :=
    {| id := k; args := a; properties := p;
       anonyDeps := None; argDeps := None; propDeps := None; setterDeps := None;
       scope := str_or (c_scope cfg) "transient";
       creator := match c_creator cfg with
                  | Some c => if truthy_creator c then c else CrNull
                  | None => CrNull
                  end;
       module := match c_module cfg with
                 | Some m => if String.eqb m "" then None else Some m
                 | None => None
                 end;
       isFactory := default false (c_isFactory cfg);
       auto := default false (c_auto cfg);
       instance := None |} in
  do l <- alloc_comp component;
  do_ (if is_function (creator component) then createCreator l None else ret tt);
  ret l.

(** [id.indexOf(ANONY_PREFIX) !== -1] *)
Definition has_prefix_marker (s : string) : bool :=
  match String.index 0 ANONY_PREFIX s with Some _ => true | None => false end.

(** The two shapes of the first argument of [addComponent]. *)
Inductive idarg :=
| IdString (k : string) (conf : loc)
| IdMap (entries : list (string * loc)).

Definition ref_config (r : string) : config :=
  {| c_ref := Some r; c_import := None; c_id := None; c_creator := None;
     c_scope := None; c_args := None; c_properties := None; c_module := None;
     c_isFactory := None; c_auto := None |}.

(** [config.id = id; delete config.$import] *)
Definition claim_config (r : string) (c : config) : config :=
  {| c_ref := c_ref c; c_import := None; c_id := Some r; c_creator := c_creator c;
     c_scope := c_scope c; c_args := c_args c; c_properties := c_properties c;
     c_module := c_module c; c_isFactory := c_isFactory c; c_auto := c_auto c |}.

Definition anonymous_id (owner idPrefix importId : string) : string :=
  let r := owner +:+ "-" +:+ idPrefix +:+ importId in
  (if has_prefix_marker r then "" else ANONY_PREFIX) +:+ r.

(** [component.anonyDeps.push(id)] *)
Definition push_anonyDep (l : loc) (r : string) : M unit :=
  do component <- read_comp l;
  match anonyDeps component with
  | Some d => write_comp l (set_anonyDeps (Some (d ++ [r])) component)
  | None => throw (TypeError "anonyDeps")
  end.

Section Registration.

(** [context.addComponent], one call deeper. *)
Variable addComponent_rec : idarg -> M unit.

(** [createAnonymousComponent(context, component, config, idPrefix)] *)
Definition createAnonymousComponent (component conf : loc) (idPrefix : string)
    : M string :=
  do cfg <- read_cfg conf;
  let importId := default "undefined" (c_import cfg) in
  do st <- get;
  match components st !! importId with
  | None => throw (ConfigError importId)
  | Some r =>
      do refConfig <- read_comp r;
      do owner <- read_comp component;
      let k := anonymous_id (id owner) idPrefix importId in
      do_ write_cfg conf (claim_config k cfg);
      do merged <- alloc_cfg (merge refConfig (claim_config k cfg));
      do_ addComponent_rec (IdString k merged);
      ret k
  end.

(** The loop over [args] of [transferAnonymousComponents]: indices
    [n-1] down to [0]. *)
Fixpoint transfer_args (component a : loc) (n : nat) : M unit :=
  match n with
  | 0 => ret tt
  | S i =>
      do xs <- read_arr a;
      do st <- get;
      do_ match xs !! i with
          | Some v =>
              match hasImport st v with
              | Some (c, _) =>
                  do k <- createAnonymousComponent component c "$arg.";
                  do r <- alloc_cfg (ref_config k);
                  do_ arr_store a i (VObj r);
                  push_anonyDep component k
              | None => ret tt
              end
          | None => ret tt
          end;
      transfer_args component a i
  end.

(** The loop over the keys of [properties]. *)
Fixpoint transfer_props (component p : loc) (keys : list string) : M unit :=
  match keys with
  | [] => ret tt
  | k0 :: keys' =>
      do kv <- read_obj p;
      do st <- get;
      do_ match assoc_get k0 kv with
          | Some v =>
              match hasImport st v with
              | Some (c, _) =>
                  do k <- createAnonymousComponent component c "$prop.";
                  do r <- alloc_cfg (ref_config k);
                  do_ obj_store p k0 (VObj r);
                  push_anonyDep component k
              | None => ret tt
              end
          | None => ret tt
          end;
      transfer_props component p keys'
  end.

(** [transferAnonymousComponents(context, component)] *)
Definition transferAnonymousComponents (l : loc) : M unit :=
  do component <- read_comp l;
  do_ write_comp l (set_anonyDeps (Some []) component);
  do xs <- read_arr (args component);
  do_ transfer_args l (args component) (length xs);
  do kv <- read_obj (properties component);
  transfer_props l (properties component) (map fst kv).

(** The first loop of [addComponent]: [for (var k in id)]. *)
Fixpoint register (entries : list (string * loc)) (ids : list string)
    : M (list string) :=
  match entries with
  | [] => ret ids
  | (k, conf) :: rest =>
      do st <- get;
      match components st !! OBJECT_KEY with
      | Some _ =>
          do_ warn (OBJECT_KEY +:+ " has been add! This will be no effect");
          register rest ids
      | None =>
          do l <- createComponent k conf;
          do st' <- get;
          do_ put (set_components (fun m => <[k := l]> m) st');
          register rest (ids ++ [k])
      end
  end.

(** The second loop of [addComponent]: indices [n-1] down to [0]. *)
Fixpoint derive (ids : list string) (n : nat) : M unit :=
  match n with
  | 0 => ret tt
  | S i =>
      do st <- get;
      do_ match ids !! i ≫= (fun k => components st !! k) with
          | None => throw (TypeError "component")
          | Some l =>
              do component <- read_comp l;
              do_ match anonyDeps component with
                  | None => transferAnonymousComponents l
                  | Some _ => ret tt
                  end;
              do st1 <- get;
              do c1 <- read_comp l;
              do_ write_comp l
                    (set_argDeps (Some (getDepsFromArgs st1 (args c1))) c1);
              do st2 <- get;
              do c2 <- read_comp l;
              write_comp l
                (set_propDeps (Some (getDepsFromProperties st2 (properties c2))) c2)
          end;
      derive ids i
  end.

(** The body of [IoC.prototype.addComponent]. *)
Definition addComponent_body (a : idarg) : M unit :=
  do ids <- match a with
            | IdString k conf =>
                do_ addComponent_rec (IdMap [(k, conf)]);
                ret []
            | IdMap entries => register entries []
            end;
  derive ids (length ids).

End Registration.

(** [IoC.prototype.addComponent]; [fuel] bounds the depth of the calls. *)
Fixpoint addComponent (fuel : nat) (a : idarg) : M unit :=
  match fuel with
  | 0 => fun _ => OutOfFuel
  | S n => addComponent_body (addComponent n) a
  end.

(** [IoC.prototype.getComponentConfig] *)
Definition getComponentConfig (st : ioc) (k : string) : option component :=
  components st !! k ≫= (fun l => comps st !! l).

Definition empty_ioc : ioc :=
  {| components := ∅; comps := []; cfgs := []; arrs := []; objs := [];
     warnings := [] |}.

Definition plain_config : config :=
  {| c_ref := None; c_import := None; c_id := None; c_creator := None;
     c_scope := None; c_args := None; c_properties := None; c_module := None;
     c_isFactory := None; c_auto := None |}.

(** ** Resolution: the asynchronous machine *)

(** What a callback can receive: nothing, an object the container
    constructed, a creator handed over as it is (static scope), or a
    property value as configured. *)
Inductive rvalue :=
| RUndef
| RInst (o : nat)
| RCreator (c : creatorv)
| RConf (v : value).

(** An object built by a creator: the component it was built for, the
    methods it exposes and the fields assigned so far. *)
Record inst_obj := {
  origin : loc;
  methods : list string;
  fields : list (string * rvalue)
}.

(** The module-to-components map handed to [loadComponentModules]. *)
Definition modmap := list (string * list loc).

(** [for (var k in moduleMaps)]: every key once, in insertion order. *)
Definition mm_keys (mm : modmap) : list string := remove_dups (map fst mm).

Inductive injtype := OfProp | OfSetter.

(** The first argument of [getComponent]: an array of ids or one id. *)
Inductive idsarg :=
| IdsArray (ids : list string)
| IdsOne (k : string).

(** [ids instanceof Array ? ids : [ids]] *)
Definition normalize (a : idsarg) : list string :=
  match a with
  | IdsArray ids => ids
  | IdsOne k => [k]
  end.

(** The closures of main.js, each with the variables it captures. *)
Inductive kont :=
| KUser (n : nat)
| KCreateInstances (ids : list string) (cb : kont)
| KTask (fr : nat) (index : nat) (component : option loc)
| KDone (fr : nat)
| KInjectDeps (instance : rvalue) (component : loc) (cb : kont)
| KInjected (g : nat) (t : injtype)
| KSetterCb (instance : rvalue) (deps : list string) (cb : kont)
| KPropCb (instance : rvalue) (deps : option (list string)) (props : loc) (cb : kont).

(** The variables of one activation of [createInstances]; [instances]
    starts as [Array(ids.length)], an array of holes. *)
Record frame := {
  f_ids : list string;
  f_cb : kont;
  f_instances : list (option rvalue);
  f_count : Z
}.

(** The variables of one activation of [injectDeps]. *)
Record gate := {
  g_prop : bool;
  g_setter : bool;
  g_cb : kont
}.

Inductive cell :=
| CFrame (f : frame)
| CGate (g : gate).

(** Calls the external collaborators hold and have not answered yet. *)
Inductive pending :=
| PLoad (modules : list string) (moduleMaps : modmap) (cb : kont)
| PConstruct (component : loc) (k : kont).

(** What is left to run of the current turn. *)
Inductive action :=
| ACall (k : kont) (args : list rvalue)
| ACreateLoop (fr : nat) (n : nat)
| AInjectSetter (instance : rvalue) (component : loc) (g : nat).

Inductive event :=
| EvLoad (modules : list string)
| EvCallback (n : nat) (args : list rvalue)
| EvSetter (instance : rvalue) (name : string) (v : rvalue).

Record machine := {
  ctx : ioc;
  insts : list inst_obj;
  acts : list cell;
  pend : list pending;
  agenda : list action;
  log : list event;
  requests : list idsarg
}.

(** The value [getComponent] returns. *)
Inductive retval :=
| RetThis
| RetUndefined.

Definition set_ctx (f : ioc -> ioc) (m : machine) : machine :=
  {| ctx := f (ctx m); insts := insts m; acts := acts m; pend := pend m;
     agenda := agenda m; log := log m; requests := requests m |}.
Definition set_insts (f : list inst_obj -> list inst_obj) (m : machine) : machine :=
  {| ctx := ctx m; insts := f (insts m); acts := acts m; pend := pend m;
     agenda := agenda m; log := log m; requests := requests m |}.
Definition set_acts (f : list cell -> list cell) (m : machine) : machine :=
  {| ctx := ctx m; insts := insts m; acts := f (acts m); pend := pend m;
     agenda := agenda m; log := log m; requests := requests m |}.
Definition set_pend (f : list pending -> list pending) (m : machine) : machine :=
  {| ctx := ctx m; insts := insts m; acts := acts m; pend := f (pend m);
     agenda := agenda m; log := log m; requests := requests m |}.
Definition set_agenda (f : list action -> list action) (m : machine) : machine :=
  {| ctx := ctx m; insts := insts m; acts := acts m; pend := pend m;
     agenda := f (agenda m); log := log m; requests := requests m |}.
Definition set_log (f : list event -> list event) (m : machine) : machine :=
  {| ctx := ctx m; insts := insts m; acts := acts m; pend := pend m;
     agenda := agenda m; log := f (log m); requests := requests m |}.
Definition set_requests (f : list idsarg -> list idsarg) (m : machine) : machine :=
  {| ctx := ctx m; insts := insts m; acts := acts m; pend := pend m;
     agenda := agenda m; log := log m; requests := f (requests m) |}.

Definition push (a : action) : machine -> machine :=
  set_agenda (fun q => a :: q).

(** Run a store operation; an exception ends the run. *)
Definition lift {A} (c : M A) (m : machine) : option (A * machine) :=
  match c (ctx m) with
  | Ok a st => Some (a, set_ctx (fun _ => st) m)
  | Throw _ _ => None
  | OutOfFuel => None
  end.

Definition upper (a : Ascii.ascii) : Ascii.ascii :=
  let n := Ascii.nat_of_ascii a in
  if (97 <=? n) && (n <=? 122) then Ascii.ascii_of_nat (n - 32) else a.

(** ['set' + key.charAt(0).toUpperCase() + key.slice(1)] *)
Definition setter_name (key : string) : string :=
  "set" +:+ match key with
            | EmptyString => EmptyString
            | String a r => String (upper a) r
            end.

(** [typeof instance[name] === 'function'] on a constructed object. *)
Definition has_method (ob : inst_obj) (name : string) : bool :=
  if decide (name ∈ methods ob) then true
  else match assoc_get name (fields ob) with
       | Some (RCreator (CrFun _)) => true
       | _ => false
       end.

(** [setProperty(instance, key, value)]. A property access on [null] or
    [undefined] throws; an assignment to a primitive is dropped; the
    properties of function and module objects are not tracked. *)
Definition setProperty (instance : rvalue) (key : string) (v : rvalue)
    (m : machine) : option machine :=
  let name := setter_name key in
  match instance with
  | RInst o =>
      match insts m !! o with
      | Some ob =>
          if has_method ob name
          then Some (set_log (fun l => l ++ [EvSetter instance name v]) m)
          else Some (set_insts (fun h =>
                 <[o := {| origin := origin ob; methods := methods ob;
                           fields := assoc_set key v (fields ob) |}]> h) m)
      | None => None
      end
  | RCreator CrNull | RCreator CrUndef => None
  | RCreator _ => Some m
  | RUndef => None
  | RConf (VLit LUndef) | RConf (VLit LNull) => None
  | RConf _ => Some m
  end.

(** Modelled from the spec: [u.indexOf], the first index of an id in a
    dependency list. *)
Fixpoint indexOf (deps : list string) (k : string) : option nat :=
  match deps with
  | [] => None
  | d :: deps' => if String.eqb d k then Some 0 else S <$> indexOf deps' k
  end.

(** How an external collaborator answers an outstanding call: the loader
    with the loaded modules, the container with the methods of the object
    the creator built. *)
Inductive response :=
| RLoaded (mods : list modval)
| RConstructed (meths : list string).

(** One move of a run: the current turn advances, an outstanding call is
    answered, or a caller issues [getComponent] with a callback of its own. *)
Inductive choice :=
| Tick
| Answer (i : nat) (r : response)
| Request (a : idsarg).

Definition set_frame_count (z : Z) (f : frame) : frame :=
  {| f_ids := f_ids f; f_cb := f_cb f; f_instances := f_instances f; f_count := z |}.
Definition set_frame_instances (l : list (option rvalue)) (f : frame) : frame :=
  {| f_ids := f_ids f; f_cb := f_cb f; f_instances := l; f_count := f_count f |}.

(** [cb.apply(null, instances)]: a hole is passed as [undefined]. *)
Definition arguments (instances : list (option rvalue)) : list rvalue :=
  map (default RUndef) instances.

(** [complete[type] = true] *)
Definition set_flag (t : injtype) (g : gate) : gate :=
  match t with
  | OfProp => {| g_prop := true; g_setter := g_setter g; g_cb := g_cb g |}
  | OfSetter => {| g_prop := g_prop g; g_setter := true; g_cb := g_cb g |}
  end.

(** The message [getComponent] logs for an id without definition. *)
Definition not_added (k : string) : string :=
  "`" +:+ k +:+ "` has not been added to the Ioc".

Section Resolution.

(** [parser.getDependentModules(component, moduleMap, deps)] and
    [parser.getDepsFromSetters(instance, properties)]: the parser is a
    collaborator of main.js, taken as given. *)
Variable getDependentModules : ioc -> loc -> modmap -> option (list string) -> modmap.
Variable getDepsFromSetters : ioc -> rvalue -> list string -> loc -> list string.

(** [loadComponentModules(context, moduleMaps, cb)] up to the call of
    the loader. *)
Definition loadComponentModules (mm : modmap) (cb : kont) (m : machine) : machine :=
  let modules := mm_keys mm in
  set_pend (fun p => p ++ [PLoad modules mm cb])
    (set_log (fun l => l ++ [EvLoad modules]) m).

(** The loop of [getComponent] over the requested ids. *)
Fixpoint needed (ids : list string) (needModules : modmap) (st : ioc) : modmap * ioc :=
  match ids with
  | [] => (needModules, st)
  | type :: rest =>
      match components st !! type with
      | None =>
          needed rest needModules
            (set_warnings (fun w => w ++ [not_added type]) st)
      | Some l =>
          needed rest
            (getDependentModules st l needModules (comps st !! l ≫= argDeps)) st
      end
  end.

(** [IoC.prototype.getComponent] *)
Definition getComponent (a : idsarg) (cb : kont) (m : machine) : machine * retval :=
  let ids := normalize a in
  let '(needModules, st) := needed ids [] (ctx m) in
  (loadComponentModules needModules (KCreateInstances ids cb)
     (set_ctx (fun _ => st) m),
   RetThis).

(** The inner loop of the loader callback: [j-1] down to [0]. *)
Fixpoint bind_components (cs : list loc) (j : nat) (module : modval) : M unit :=
  match j with
  | 0 => ret tt
  | S j' =>
      do_ match cs !! j' with
          | Some l =>
              do component <- read_comp l;
              if is_function (creator component) then ret tt
              else createCreator l (Some module)
          | None => throw (TypeError "component")
          end;
      bind_components cs j' module
  end.

(** The outer loop of the loader callback: [i-1] down to [0]. *)
Fixpoint bind_modules (modules : list string) (mm : modmap) (mods : list modval)
    (i : nat) : M unit :=
  match i with
  | 0 => ret tt
  | S i' =>
      do_ match mods !! i' with
          | Some module =>
              match modules !! i' ≫= (fun k => assoc_get k mm) with
              | Some cs => bind_components cs (length cs) module
              | None => throw (TypeError "components")
              end
          | None => ret tt
          end;
      bind_modules modules mm mods i'
  end.

(** The callback [loadComponentModules] hands to the loader. *)
Definition loaded (modules : list string) (mm : modmap) (cb : kont)
    (mods : list modval) (m : machine) : option machine :=
  match lift (bind_modules modules mm mods (length mods)) m with
  | Some (_, m') => Some (push (ACall cb []) m')
  | None => None
  end.

(** Modelled from the spec: [Container.createInstance(component,
    continuation)], the scope dispatch of section 4.5. Resolving the
    arguments and calling the creator is the container's own business;
    its outcome arrives as a [RConstructed] answer. *)
Definition createInstance (component : option loc) (k : kont) (m : machine)
    : option machine :=
  match component with
  | None => Some (push (ACall k [RUndef]) m)
  | Some l =>
      match comps (ctx m) !! l with
      | None => None
      | Some c =>
          if is_static c then Some (push (ACall k [RCreator (creator c)]) m)
          else
            match String.eqb (scope c) "singleton", instance c with
            | true, Some o => Some (push (ACall k [RInst o]) m)
            | _, _ => Some (set_pend (fun p => p ++ [PConstruct l k]) m)
            end
      end
  end.

(** Modelled from the spec: the container finishes a construction,
    caches a singleton and continues. *)
Definition constructed (l : loc) (k : kont) (meths : list string) (m : machine)
    : option machine :=
  match comps (ctx m) !! l with
  | None => None
  | Some c =>
      let o := length (insts m) in
      let m1 := set_insts
                  (fun h => h ++ [{| origin := l; methods := meths; fields := [] |}]) m in
      let m2 := if String.eqb (scope c) "singleton"
                then set_ctx (set_comps (fun h => <[l := set_instance (Some o) c]> h)) m1
                else m1 in
      Some (push (ACall k [RInst o]) m2)
  end.

(** [createInstances(ids, cb)] up to its loop. *)
Definition createInstances (ids : list string) (cb : kont) (m : machine)
    : option machine :=
  match ids with
  | [] => Some (push (ACall cb []) m)
  | _ =>
      let fr := length (acts m) in
      let f := {| f_ids := ids; f_cb := cb;
                  f_instances := replicate (length ids) None;
                  f_count := Z.of_nat (length ids) |} in
      Some (push (ACreateLoop fr (length ids))
              (set_acts (fun h => h ++ [CFrame f]) m))
  end.

(** [done] of the activation [fr]. *)
Definition done (fr : nat) (m : machine) : option machine :=
  match acts m !! fr with
  | Some (CFrame f) =>
      let count := (f_count f - 1)%Z in
      let m' := set_acts (fun h => <[fr := CFrame (set_frame_count count f)]> h) m in
      if (count =? 0)%Z then Some (push (ACall (f_cb f) (arguments (f_instances f))) m')
      else Some m'
  | _ => None
  end.

(** The closure [task(index, component)] of the activation [fr]. *)
Definition task (fr index : nat) (component : option loc) (inst : rvalue)
    (m : machine) : option machine :=
  match acts m !! fr with
  | Some (CFrame f) =>
      let m1 := set_acts (fun h =>
        <[fr := CFrame (set_frame_instances (<[index := Some inst]> (f_instances f)) f)]> h) m in
      match component with
      | Some l =>
          match comps (ctx m1) !! l with
          | None => None
          | Some c =>
              let needModules := getDependentModules (ctx m1) l [] (propDeps c) in
              let '(needModules, m2) :=
                match setterDeps c, auto c with
                | None, true =>
                    let meths := match inst with
                                 | RInst o => default [] (methods <$> insts m1 !! o)
                                 | _ => []
                                 end in
                    let sd := getDepsFromSetters (ctx m1) inst meths (properties c) in
                    let m2 := set_ctx
                                (set_comps (fun h => <[l := set_setterDeps (Some sd) c]> h))
                                m1 in
                    (getDependentModules (ctx m2) l needModules (Some sd), m2)
                | _, _ => (needModules, m1)
                end in
              Some (loadComponentModules needModules
                      (KInjectDeps inst l (KDone fr)) m2)
          end
      | None => Some (push (ACall (KDone fr) []) m1)
      end
  | _ => None
  end.

(** [injected(type)] of the activation [g] of [injectDeps]. *)
Definition injected (g : nat) (t : injtype) (m : machine) : option machine :=
  match acts m !! g with
  | Some (CGate c) =>
      let c' := set_flag t c in
      let m' := set_acts (fun h => <[g := CGate c']> h) m in
      if g_prop c' && g_setter c' then Some (push (ACall (g_cb c') []) m')
      else Some m'
  | _ => None
  end.

(** [ids] as [getComponent] sees [component.propDeps]. *)
Definition deps_arg (d : option (list string)) : idsarg :=
  match d with
  | Some l => IdsArray l
  | None => IdsOne "null"
  end.

(** [injectPropDependencies(context, instance, component, cb)] *)
Definition injectPropDependencies (inst : rvalue) (l : loc) (cb : kont) (m : machine)
    : option machine :=
  match comps (ctx m) !! l with
  | None => None
  | Some c =>
      Some (fst (getComponent (deps_arg (propDeps c))
                   (KPropCb inst (propDeps c) (properties c) cb) m))
  end.

(** [injectSetterDependencies(context, instance, component, cb)] *)
Definition injectSetterDependencies (inst : rvalue) (l : loc) (cb : kont) (m : machine)
    : option machine :=
  match comps (ctx m) !! l with
  | None => None
  | Some c =>
      let deps := default [] (setterDeps c) in
      Some (fst (getComponent (IdsArray deps) (KSetterCb inst deps cb) m))
  end.

(** [injectDeps(instance, component, cb)]: the gate is created and
    property injection started; setter injection is the next statement. *)
Definition injectDeps (inst : rvalue) (l : loc) (cb : kont) (m : machine)
    : option machine :=
  let g := length (acts m) in
  let m1 := set_acts
              (fun h => h ++ [CGate {| g_prop := false; g_setter := false; g_cb := cb |}])
              m in
  injectPropDependencies inst l (KInjected g OfProp) (push (AInjectSetter inst l g) m1).

(** The callback of [injectSetterDependencies]: [i-1] down to [0]. *)
Fixpoint set_from_deps (inst : rvalue) (deps : list string) (args : list rvalue)
    (i : nat) (m : machine) : option machine :=
  match i with
  | 0 => Some m
  | S i' =>
      match deps !! i' with
      | Some dep =>
          setProperty inst dep (default RUndef (args !! i')) m
            ≫= set_from_deps inst deps args i'
      | None => None
      end
  end.

(** The callback of [injectPropDependencies]: [for (var k in props)]. *)
Fixpoint set_from_props (inst : rvalue) (deps : option (list string))
    (args : list rvalue) (kv : list (string * value)) (m : machine) : option machine :=
  match kv with
  | [] => Some m
  | (k, v) :: kv' =>
      let v' := match hasReference (ctx m) v with
                | Some r =>
                    match indexOf (default [] deps) r with
                    | Some i => default RUndef (args !! i)
                    | None => RUndef
                    end
                | None => RConf v
                end in
      setProperty inst k v' m ≫= set_from_props inst deps args kv'
  end.

(** Calling a closure. *)
Definition call (k : kont) (args : list rvalue) (m : machine) : option machine :=
  match k with
  | KUser n => Some (set_log (fun l => l ++ [EvCallback n args]) m)
  | KCreateInstances ids cb => createInstances ids cb m
  | KTask fr index component => task fr index component (default RUndef (args !! 0)) m
  | KDone fr => done fr m
  | KInjectDeps inst l cb => injectDeps inst l cb m
  | KInjected g t => injected g t m
  | KSetterCb inst deps cb =>
      push (ACall cb []) <$> set_from_deps inst deps args (length deps) m
  | KPropCb inst deps props cb =>
      match objs (ctx m) !! props with
      | Some kv => push (ACall cb []) <$> set_from_props inst deps args kv m
      | None => None
      end
  end.

(** The next piece of the current turn. *)
Definition tick (m : machine) : option machine :=
  match agenda m with
  | [] => Some m
  | a :: q =>
      let m := set_agenda (fun _ => q) m in
      match a with
      | ACall k args => call k args m
      | ACreateLoop fr 0 => Some m
      | ACreateLoop fr (S i) =>
          match acts m !! fr with
          | Some (CFrame f) =>
              let component := f_ids f !! i ≫= (fun k => components (ctx m) !! k) in
              createInstance component (KTask fr i component)
                (push (ACreateLoop fr i) m)
          | _ => None
          end
      | AInjectSetter inst l g => injectSetterDependencies inst l (KInjected g OfSetter) m
      end
  end.

(** An external collaborator answers its [i]-th outstanding call. *)
Definition answer (i : nat) (r : response) (m : machine) : option machine :=
  match pend m !! i, r with
  | Some (PLoad modules mm cb), RLoaded mods =>
      loaded modules mm cb mods (set_pend (delete i) m)
  | Some (PConstruct l k), RConstructed meths =>
      constructed l k meths (set_pend (delete i) m)
  | _, _ => Some m
  end.

Definition step (c : choice) (m : machine) : option machine :=
  match c with
  | Tick => tick m
  | Answer i r => answer i r m
  | Request a =>
      Some (fst (getComponent a (KUser (length (requests m)))
                   (set_requests (fun r => r ++ [a]) m)))
  end.

(** A run under a schedule; [None] when an exception escapes. *)
Fixpoint exec (s : list choice) (m : machine) : option machine :=
  match s with
  | [] => Some m
  | c :: s' => step c m ≫= exec s'
  end.

End Resolution.

Definition boot (st : ioc) : machine :=
  {| ctx := st; insts := []; acts := []; pend := []; agenda := []; log := [];
     requests := [] |}.

(** Nothing left to run and no call outstanding. *)
Definition quiescent (m : machine) : Prop := agenda m = [] ∧ pend m = [].

(** ** A parser instance *)

(** [result[module] = result[module] || []; result[module].push(component)] *)
Definition mm_push (k : string) (l : loc) (mm : modmap) : modmap :=
  assoc_set k (default [] (assoc_get k mm) ++ [l]) mm.

(** Modelled from the spec: [parser.getDependentModules] of section 4.1,
    which for each dependency id looks up its definition and, when its
    creator is not yet callable, appends the component to the pending
    list of its module. *)
Definition spec_getDependentModules (st : ioc) (l : loc) (mm : modmap)
    (deps : option (list string)) : modmap :=
  foldl (fun acc k =>
           match getComponentConfig st k with
           | Some c =>
               match is_function (creator c), module c, components st !! k with
               | false, Some mname, Some dl => mm_push mname dl acc
               | _, _, _ => acc
               end
           | None => acc
           end) mm (default [] deps).

Definition lower (a : Ascii.ascii) : Ascii.ascii :=
  let n := Ascii.nat_of_ascii a in
  if (65 <=? n) && (n <=? 90) then Ascii.ascii_of_nat (n + 32) else a.

(** The property a method named [setXyz] stands for. *)
Definition setter_target (name : string) : option string :=
  match name with
  | String "s"%char (String "e"%char (String "t"%char (String a r))) =>
      Some (String (lower a) r)
  | _ => None
  end.

(** Modelled from the spec: [parser.getDepsFromSetters] of section 4.4a,
    the properties discoverable through setter methods of the instance
    and not declared in [properties]. *)
Definition spec_getDepsFromSetters (st : ioc) (inst : rvalue) (meths : list string)
    (p : loc) : list string :=
  let declared := map fst (default [] (objs st !! p)) in
  omap (fun name =>
          match setter_target name with
          | Some k => if decide (k ∈ declared) then None else Some k
          | None => None
          end) meths.

Definition run : list choice -> machine -> option machine :=
  exec spec_getDependentModules spec_getDepsFromSetters.

(** ** Accounting for closures

    A closure that is still to be called sits in the agenda, in an
    outstanding external call, or in an activation record that has not
    released its callback yet. [owes tk k] counts the calls of the kind
    [tk] that calling [k] will lead to. *)

Inductive token :=
| TUser (n : nat)
| TDone (fr : nat)
| TTask (fr : nat) (i : nat)
| TInj (g : nat) (t : injtype).

Global Instance injtype_eq_dec : EqDecision injtype.
Proof. solve_decision. Defined.

Global Instance token_eq_dec : EqDecision token.
Proof. solve_decision. Defined.

Fixpoint owes (tk : token) (k : kont) : nat :=
  match k with
  | KUser n => if decide (tk = TUser n) then 1 else 0
  | KDone fr => if decide (tk = TDone fr) then 1 else 0
  | KTask fr i _ =>
      (if decide (tk = TDone fr) then 1 else 0)
      + (if decide (tk = TTask fr i) then 1 else 0)
  | KInjected g t => if decide (tk = TInj g t) then 1 else 0
  | KCreateInstances _ cb => owes tk cb
  | KInjectDeps _ _ cb => owes tk cb
  | KSetterCb _ _ cb => owes tk cb
  | KPropCb _ _ _ cb => owes tk cb
  end.

Definition owes_action (tk : token) (a : action) : nat :=
  match a with
  | ACall k _ => owes tk k
  | ACreateLoop fr n =>
      match tk with
      | TDone fr' => if decide (fr' = fr) then n else 0
      | TTask fr' i => if decide (fr' = fr ∧ i < n) then 1 else 0
      | _ => 0
      end
  | AInjectSetter _ _ g => if decide (tk = TInj g OfSetter) then 1 else 0
  end.

Definition owes_pending (tk : token) (p : pending) : nat :=
  match p with
  | PLoad _ _ cb => owes tk cb
  | PConstruct _ k => owes tk k
  end.

Definition cell_cb (c : cell) : kont :=
  match c with
  | CFrame f => f_cb f
  | CGate g => g_cb g
  end.

(** An activation record keeps its callback until the counter reaches
    zero, respectively until both flags are set. *)
Definition holds (c : cell) : bool :=
  match c with
  | CFrame f => (0 <? f_count f)%Z
  | CGate g => negb (g_prop g && g_setter g)
  end.

Definition owes_cell (tk : token) (c : cell) : nat :=
  if holds c then owes tk (cell_cb c) else 0.

Definition live (tk : token) (m : machine) : nat :=
  sum_list_with (owes_action tk) (agenda m)
  + sum_list_with (owes_pending tk) (pend m)
  + sum_list_with (owes_cell tk) (acts m).

Definition is_callback (n : nat) (e : event) : bool :=
  match e with
  | EvCallback n' _ => Nat.eqb n n'
  | _ => false
  end.

(** How often the callback of request [n] has been invoked. *)
Definition fired (n : nat) (l : list event) : nat :=
  length (List.filter (is_callback n) l).

Definition flag (t : injtype) (g : gate) : bool :=
  match t with
  | OfProp => g_prop g
  | OfSetter => g_setter g
  end.

(** What an activation record still waits for. *)
Definition cell_credit (tk : token) (c : cell) : Z :=
  match tk, c with
  | TDone _, CFrame f => f_count f
  | TTask _ i, CFrame f =>
      match f_instances f !! i with
      | Some None => 1%Z
      | _ => 0%Z
      end
  | TInj _ t, CGate g => if flag t g then 0%Z else 1%Z
  | _, _ => 0%Z
  end.

(** The calls of kind [tk] that are still due. *)
Definition credit (m : machine) (tk : token) : Z :=
  match tk with
  | TUser n =>
      ((if decide (n < length (requests m))%nat then 1 else 0)
       - Z.of_nat (fired n (log m)))%Z
  | TDone fr => from_option (cell_credit tk) 0%Z (acts m !! fr)
  | TTask fr _ => from_option (cell_credit tk) 0%Z (acts m !! fr)
  | TInj g t => from_option (cell_credit tk) 0%Z (acts m !! g)
  end.

Definition token_cell (tk : token) : option nat :=
  match tk with
  | TUser _ => None
  | TDone fr => Some fr
  | TTask fr _ => Some fr
  | TInj g _ => Some g
  end.

(** Every closure still to be called is accounted for exactly once. *)
Definition balanced (m : machine) : Prop :=
  ∀ tk, Z.of_nat (live tk m) = credit m tk.

(** An activation record only holds closures of earlier activations. *)
Definition layered (m : machine) : Prop :=
  ∀ j c tk i, acts m !! j = Some c → token_cell tk = Some i → j ≤ i →
    owes tk (cell_cb c) = 0.

(** All activation records have released their callbacks. *)
Definition settled (m : machine) : Prop :=
  ∀ j c, acts m !! j = Some c → holds c = false.

Definition inv (m : machine) : Prop := balanced m ∧ layered m.

(** Two states that differ at most in the constructed objects, the store
    and the setter calls logged. *)
Definition same_accounts (m m' : machine) : Prop :=
  agenda m' = agenda m ∧ pend m' = pend m ∧ acts m' = acts m
  ∧ requests m' = requests m ∧ ∀ n, fired n (log m') = fired n (log m).

(** What is left once the closure [k] has been taken from the agenda. *)
Definition spends (k : kont) (m : machine) : Prop :=
  ∀ tk, Z.of_nat (owes tk k + live tk m) = credit m tk.

(** ** Positions

    What the callbacks receive, slot by slot. *)














(** [st'] is [st] with some creators bound: a creator that is a function
    stays as it is. *)
Definition rebinds (st st' : ioc) : Prop :=
  components st' = components st ∧ cfgs st' = cfgs st ∧ arrs st' = arrs st
  ∧ objs st' = objs st ∧ warnings st' = warnings st
  ∧ ∀ l, match comps st !! l, comps st' !! l with
         | Some c, Some c' =>
             c' = set_creator (creator c') c
             ∧ (is_function (creator c) = true → c' = c)
         | None, None => True
         | _, _ => False
         end.

(** A store in which no singleton has been cached yet. *)
Definition fresh_store (st : ioc) : Prop :=
  ∀ l c, comps st !! l = Some c → instance c = None.

Definition fresh_storeb (st : ioc) : bool :=
  forallb (fun c => match instance c with None => true | Some _ => false end)
    (comps st).

(** ** Concrete containers and schedules *)

Definition function_config (n : nat) (sc : option string) : config :=
  {| c_ref := None; c_import := None; c_id := None;
     c_creator := Some (CrFun (FUser n)); c_scope := sc; c_args := None;
     c_properties := None; c_module := None; c_isFactory := None;
     c_auto := None |}.

Definition state_of (o : outcome unit) : ioc :=
  match o with
  | Ok _ st => st
  | Throw _ st => st
  | OutOfFuel => empty_ioc
  end.

(** Two configs for the id [a], with creators [f1] and [f2]. *)
Definition twice_store : ioc :=
  set_cfgs (fun _ => [function_config 1 None; function_config 2 None]) empty_ioc.

(** [ioc.addComponent('a', {creator: f1}); ioc.addComponent('a', {creator: f2})] *)
Definition twice_single : outcome unit :=
  (do_ addComponent 3 (IdString "a" 0); addComponent 3 (IdString "a" 1)) twice_store.

(** [ioc.addComponent({a: {creator: f1}}); ioc.addComponent({a: {creator: f2}})] *)
Definition twice_map : outcome unit :=
  (do_ addComponent 3 (IdMap [("a", 0)]); addComponent 3 (IdMap [("a", 1)]))
    twice_store.

(** Transient [a] and [b], both with function creators. *)
Definition ab_store : ioc :=
  Eval vm_compute in
    state_of
      ((do_ addComponent 3 (IdString "a" 0); addComponent 3 (IdString "b" 1))
         twice_store).

(** [getComponent(['a', 'b', 'a'], cb)]: the loader answers, the container
    builds the three objects (index 1 first), and the six injection
    requests are answered one after the other. *)
Definition aba_schedule : list choice :=
  [Request (IdsArray ["a"; "b"; "a"]); Answer 0 (RLoaded []);
   Tick; Tick; Tick; Tick; Tick;
   Answer 1 (RConstructed []); Tick;
   Answer 0 (RConstructed []); Tick;
   Answer 0 (RConstructed []); Tick]
  ++ concat (replicate 3
       [Answer 0 (RLoaded []); Tick; Tick;
        Answer 0 (RLoaded []); Tick; Tick;
        Answer 0 (RLoaded []); Tick; Tick; Tick; Tick])
  ++ [Tick; Tick; Tick; Tick; Tick; Tick].

(** [getComponent(['a', 'nope'], cb)] *)
Definition missing_schedule : list choice :=
  [Request (IdsArray ["a"; "nope"]); Answer 0 (RLoaded []);
   Tick; Tick; Tick; Tick; Tick; Tick;
   Answer 0 (RConstructed []); Tick;
   Answer 0 (RLoaded []); Tick; Tick;
   Answer 0 (RLoaded []); Tick; Tick;
   Answer 0 (RLoaded []); Tick; Tick; Tick; Tick; Tick; Tick].

Definition aba_final : machine :=
  Eval vm_compute in default (boot empty_ioc) (run aba_schedule (boot ab_store)).

Definition missing_final : machine :=
  Eval vm_compute in default (boot empty_ioc) (run missing_schedule (boot ab_store)).





(** ** Registration, step by step *)









(** [key] names an anonymous component. *)
Definition registered (st s : ioc) (key : string) : Prop :=
  ∃ l ac, components s !! key = Some l ∧ length (comps st) < l
          ∧ comps s !! l = Some ac ∧ id ac = key.


(** The entry [v] has been rewritten into [v'] in the store [s]: an entry
    without [$import] is left as it is; an entry that imported [imp] is a
    reference to the synthetic id, which names an anonymous component and
    is listed in [ds], and its config object has lost [$import] and
    gained the synthetic id. *)
Definition rewritten (st : ioc) (k marker : string) (s : ioc) (ds : list string)
    (v v' : value) : Prop :=
  match hasImport st v with
  | None => v' = v
  | Some (c, imp) =>
      ∃ r cf, v' = VObj r
           ∧ cfgs s !! r = Some (ref_config (anonymous_id k marker imp))
           ∧ registered st s (anonymous_id k marker imp)
           ∧ anonymous_id k marker imp ∈ ds
           ∧ cfgs s !! c = Some cf ∧ c_import cf = None
           ∧ c_id cf = Some (anonymous_id k marker imp)
  end.

(** ** An owner with an import among its arguments and its properties *)

(** The config of [b]: a module creator, the argument array [0] and the
    property map [0]. *)
Definition owner_config : config :=
  {| c_ref := None; c_import := None; c_id := None;
     c_creator := Some (CrStr "B"); c_scope := None; c_args := Some 0;
     c_properties := Some 0; c_module := Some "modB"; c_isFactory := None;
     c_auto := None |}.

(** A config that imports [a] and overrides its scope. *)
Definition import_config (sc : option string) : config :=
  {| c_ref := None; c_import := Some "a"; c_id := None; c_creator := None;
     c_scope := sc; c_args := None; c_properties := None; c_module := None;
     c_isFactory := None; c_auto := None |}.

Definition owner_args : list value := [VLit (LNum 1); VObj 2].

Definition owner_props : list (string * value) :=
  [("x", VObj 3); ("y", VLit (LNum 7))].

(** [a] is registered; [b] is about to be, with the arguments
    [[1, { $import: 'a', scope: 'singleton' }]] and the properties
    [{ x: { $import: 'a' }, y: 7 }]. *)
Definition owner_store : ioc :=
  Eval vm_compute in
    state_of
      (addComponent 5 (IdString "a" 0)
         (set_objs (fun _ => [owner_props])
            (set_arrs (fun _ => [owner_args])
               (set_cfgs (fun _ =>
                  [function_config 1 None; owner_config;
                   import_config (Some "singleton"); import_config None])
                  empty_ioc)))).

Definition owner_final : ioc :=
  Eval vm_compute in state_of (addComponent 4 (IdString "b" 1) owner_store).


(** * Properties *)

(** ** The accounting is preserved by every move *)

Section Accounting.

Context (tk : token).

Lemma live_set_ctx f m : live tk (set_ctx f m) = live tk m.
Proof. reflexivity. Qed.

Lemma live_set_log f m : live tk (set_log f m) = live tk m.
Proof. reflexivity. Qed.

Lemma live_set_insts f m : live tk (set_insts f m) = live tk m.
Proof. reflexivity. Qed.

Lemma live_set_requests f m : live tk (set_requests f m) = live tk m.
Proof. reflexivity. Qed.

Lemma live_push a m : live tk (push a m) = owes_action tk a + live tk m.
Proof. unfold live; simpl; lia. Qed.

Lemma live_pop a q m :
  agenda m = a :: q →
  live tk m = owes_action tk a + live tk (set_agenda (fun _ => q) m).
Proof. intros E; unfold live; rewrite E; simpl; lia. Qed.

Lemma live_pend_snoc p m :
  live tk (set_pend (fun l => l ++ [p]) m) = owes_pending tk p + live tk m.
Proof. unfold live; simpl. rewrite sum_list_with_app; simpl; lia. Qed.

Lemma sum_list_with_delete {A} (f : A → nat) (l : list A) i x :
  l !! i = Some x → sum_list_with f l = f x + sum_list_with f (delete i l).
Proof.
  revert i; induction l as [|y l IH]; intros [|i] E; simplify_eq/=; try lia.
  rewrite (IH _ E); lia.
Qed.

Lemma sum_list_with_insert {A} (f : A → nat) (l : list A) i x y :
  l !! i = Some x →
  sum_list_with f (<[i := y]> l) + f x = sum_list_with f l + f y.
Proof.
  revert i; induction l as [|z l IH]; intros [|i] E; simplify_eq/=; try lia.
  specialize (IH _ E); lia.
Qed.

Lemma live_pend_delete i p m :
  pend m !! i = Some p →
  live tk m = owes_pending tk p + live tk (set_pend (delete i) m).
Proof.
  intros E; unfold live; simpl.
  rewrite (sum_list_with_delete _ _ _ _ E); lia.
Qed.

Lemma live_acts_snoc c m :
  live tk (set_acts (fun l => l ++ [c]) m) = owes_cell tk c + live tk m.
Proof. unfold live; simpl. rewrite sum_list_with_app; simpl; lia. Qed.

Lemma live_acts_insert i c c' m :
  acts m !! i = Some c →
  live tk (set_acts (fun l => <[i := c']> l) m) + owes_cell tk c
  = live tk m + owes_cell tk c'.
Proof.
  intros E; unfold live; simpl.
  pose proof (sum_list_with_insert (owes_cell tk) _ _ _ c' E); lia.
Qed.

End Accounting.

Lemma credit_acts_insert tk i c c' m :
  acts m !! i = Some c →
  credit (set_acts (fun l => <[i := c']> l) m) tk
  = if decide (token_cell tk = Some i) then cell_credit tk c' else credit m tk.
Proof.
  intros E. pose proof (lookup_lt_Some _ _ _ E) as Hlt.
  destruct tk as [n|fr|fr k|g t]; simpl; [by case_decide|..].
  all: case_decide; simplify_eq;
    [ by rewrite list_lookup_insert_eq
    | rewrite list_lookup_insert_ne; [done|congruence] ].
Qed.

Lemma credit_acts_snoc tk c m :
  credit (set_acts (fun l => l ++ [c]) m) tk
  = if decide (token_cell tk = Some (length (acts m))) then cell_credit tk c
    else credit m tk.
Proof.
  assert (∀ i, (acts m ++ [c]) !! i
               = if decide (i = length (acts m)) then Some c else acts m !! i) as L.
  { intros i. case_decide; subst.
    - by rewrite lookup_app_r, Nat.sub_diag.
    - destruct (decide (i < length (acts m))).
      + by rewrite lookup_app_l.
      + rewrite !lookup_ge_None_2; [done|lia|rewrite length_app; simpl; lia]. }
  destruct tk as [n|fr|fr k|g t]; simpl; [by case_decide|..]; rewrite L;
    repeat case_decide; simplify_eq; done.
Qed.

Lemma fired_snoc n l e :
  fired n (l ++ [e]) = fired n l + (if is_callback n e then 1 else 0).
Proof.
  unfold fired. rewrite List.filter_app, length_app. simpl.
  by destruct (is_callback n e).
Qed.

Lemma credit_log_snoc tk e m :
  credit (set_log (fun l => l ++ [e]) m) tk
  = match tk with
    | TUser n => (credit m tk - (if is_callback n e then 1 else 0))%Z
    | _ => credit m tk
    end.
Proof.
  destruct tk; simpl; try done. rewrite fired_snoc.
  destruct (is_callback n e); lia.
Qed.

Lemma balanced_unborn tk i m :
  balanced m → token_cell tk = Some i → acts m !! i = None → live tk m = 0.
Proof.
  intros B T E. specialize (B tk).
  destruct tk; simplify_eq/=; rewrite E in B; simpl in B; lia.
Qed.

Lemma layered_insert i c c' m :
  acts m !! i = Some c → cell_cb c' = cell_cb c → layered m →
  layered (set_acts (fun l => <[i := c']> l) m).
Proof.
  intros E Hcb L j d tk k Hj Ht Hle. simpl in Hj.
  destruct (decide (j = i)) as [->|Hne].
  - rewrite list_lookup_insert_eq in Hj by eauto using lookup_lt_Some.
    simplify_eq. rewrite Hcb. eauto.
  - rewrite list_lookup_insert_ne in Hj by done. eauto.
Qed.

Lemma layered_snoc c m :
  (∀ tk i, token_cell tk = Some i → length (acts m) ≤ i → owes tk (cell_cb c) = 0) →
  layered m → layered (set_acts (fun l => l ++ [c]) m).
Proof.
  intros Hc L j d tk k Hj Ht Hle. simpl in Hj.
  destruct (decide (j < length (acts m))).
  - rewrite lookup_app_l in Hj by done. eauto.
  - rewrite lookup_app_r in Hj by lia.
    destruct (j - length (acts m)) eqn:Ej; simplify_eq/=.
    apply (Hc _ _ Ht). lia.
Qed.

Section Steps.

Variable getDependentModules : ioc -> loc -> modmap -> option (list string) -> modmap.
Variable getDepsFromSetters : ioc -> rvalue -> list string -> loc -> list string.

Local Abbreviation getComponent := (getComponent getDependentModules).
Local Abbreviation tick := (tick getDependentModules getDepsFromSetters).
Local Abbreviation call := (call getDependentModules getDepsFromSetters).
Local Abbreviation step := (step getDependentModules getDepsFromSetters).
Local Abbreviation exec := (exec getDependentModules getDepsFromSetters).

Lemma getComponent_shape a cb m :
  ∃ mm st,
    fst (getComponent a cb m)
    = set_pend (fun p => p ++ [PLoad (mm_keys mm) mm (KCreateInstances (normalize a) cb)])
        (set_log (fun l => l ++ [EvLoad (mm_keys mm)]) (set_ctx (fun _ => st) m))
    ∧ components st = components (ctx m) ∧ comps st = comps (ctx m)
    ∧ objs st = objs (ctx m) ∧ cfgs st = cfgs (ctx m).
Proof.
  unfold getComponent.
  assert (∀ ids mm st, ∃ mm' st', needed getDependentModules ids mm st = (mm', st')
            ∧ components st' = components st ∧ comps st' = comps st
            ∧ objs st' = objs st ∧ cfgs st' = cfgs st) as N.
  { induction ids as [|k ids IH]; intros mm st; simpl; [by eauto 10|].
    destruct (components st !! k).
    - apply IH.
    - destruct (IH mm (set_warnings (fun w => w ++ [not_added k]) st))
        as (mm' & st' & -> & ? & ? & ? & ?).
      by eauto 10. }
  destruct (N (normalize a) [] (ctx m)) as (mm & st & -> & ? & ? & ? & ?).
  exists mm, st. by simpl.
Qed.

Lemma getComponent_live tk a cb m :
  live tk (fst (getComponent a cb m)) = owes tk cb + live tk m.
Proof.
  destruct (getComponent_shape a cb m) as (mm & st & -> & _).
  by rewrite live_pend_snoc.
Qed.

Lemma getComponent_credit tk a cb m :
  credit (fst (getComponent a cb m)) tk = credit m tk.
Proof.
  destruct (getComponent_shape a cb m) as (mm & st & -> & _).
  destruct tk; simpl; try done. by rewrite fired_snoc, Nat.add_0_r.
Qed.

Lemma getComponent_acts a cb m : acts (fst (getComponent a cb m)) = acts m.
Proof. by destruct (getComponent_shape a cb m) as (mm & st & -> & _). Qed.

Lemma getComponent_layered a cb m :
  layered m → layered (fst (getComponent a cb m)).
Proof. unfold layered. by rewrite getComponent_acts. Qed.


Lemma same_accounts_refl m : same_accounts m m.
Proof. by repeat split. Qed.

Lemma same_accounts_trans m1 m2 m3 :
  same_accounts m1 m2 → same_accounts m2 m3 → same_accounts m1 m3.
Proof.
  intros (?&?&?&?&F1) (?&?&?&?&F2). repeat split; try congruence.
  all: intros n; by rewrite F2, F1.
Qed.

Lemma same_accounts_live tk m m' : same_accounts m m' → live tk m' = live tk m.
Proof. intros (A&P&C&_). unfold live. by rewrite A, P, C. Qed.

Lemma same_accounts_credit tk m m' : same_accounts m m' → credit m' tk = credit m tk.
Proof.
  intros (_&_&C&R&F). destruct tk; simpl; rewrite ?C, ?R, ?F; done.
Qed.

Lemma same_accounts_layered m m' : same_accounts m m' → layered m → layered m'.
Proof. intros (_&_&C&_). unfold layered. by rewrite C. Qed.

Lemma setProperty_same inst key v m m' :
  setProperty inst key v m = Some m' → same_accounts m m'.
Proof.
  unfold setProperty. intros H.
  repeat (case_match; simplify_eq/=);
    first [ apply same_accounts_refl
          | repeat split; try done; intros n; simpl;
            by rewrite ?fired_snoc, ?Nat.add_0_r ].
Qed.

Lemma set_from_deps_same inst deps args i m m' :
  set_from_deps inst deps args i m = Some m' → same_accounts m m'.
Proof.
  revert m. induction i as [|i IH]; intros m H; simpl in H.
  - simplify_eq. apply same_accounts_refl.
  - destruct (deps !! i); [|done].
    destruct (setProperty inst s (default RUndef (args !! i)) m) as [m1|] eqn:E;
      [|done].
    simpl in H. eauto using same_accounts_trans, setProperty_same.
Qed.

Lemma set_from_props_same inst deps args kv m m' :
  set_from_props inst deps args kv m = Some m' → same_accounts m m'.
Proof.
  revert m. induction kv as [|[k v] kv IH]; intros m H; simpl in H.
  - simplify_eq. apply same_accounts_refl.
  - match type of H with (?x ≫= _) = _ => destruct x as [m1|] eqn:E end; [|done].
    simpl in H. eauto using same_accounts_trans, setProperty_same.
Qed.

Ltac tok :=
  repeat (case_decide; simplify_eq/=); destruct_and?; simplify_eq;
  try done; try lia; try congruence.

Lemma spends_unborn k m tk i :
  spends k m → token_cell tk = Some i → length (acts m) ≤ i → owes tk k = 0.
Proof.
  intros H T Hle. specialize (H tk).
  assert (acts m !! i = None) as E by (apply lookup_ge_None_2; lia).
  destruct tk; simplify_eq/=; rewrite E in H; simpl in H; lia.
Qed.

Lemma user_inv n args m :
  spends (KUser n) m → layered m →
  inv (set_log (fun l => l ++ [EvCallback n args]) m).
Proof.
  intros H L; split; [|done]. intros tk.
  rewrite live_set_log, credit_log_snoc. specialize (H tk).
  destruct tk as [n'| | |]; simpl in *; tok.
  all: match goal with |- context [Nat.eqb ?a ?b] => destruct (Nat.eqb_spec a b) end;
    simplify_eq; lia.
Qed.

Lemma createInstances_inv ids cb m m' :
  spends (KCreateInstances ids cb) m → layered m →
  createInstances ids cb m = Some m' → inv m'.
Proof.
  intros H L E. unfold createInstances in E.
  destruct ids as [|k ids]; simplify_eq.
  - split; [|done]. intros tk. rewrite live_push. apply (H tk).
  - set (f := {| f_ids := k :: ids; f_cb := cb |}).
    split.
    + intros tk. rewrite live_push, live_acts_snoc.
      change (credit _ tk) with (credit (set_acts (fun h => h ++ [CFrame f]) m) tk).
      rewrite credit_acts_snoc.
      pose proof (spends_unborn _ m tk (length (acts m)) H) as U.
      specialize (H tk). simpl in H.
      assert (owes_cell tk (CFrame f) = owes tk cb) as -> by done.
      case_decide as T.
      * specialize (U T (le_n _)). simpl in U.
        assert (acts m !! length (acts m) = None) as E
          by (apply lookup_ge_None_2; lia).
        destruct tk as [|fr|fr i|g t]; simplify_eq/=; rewrite E in H; simpl in H;
          tok.
        -- destruct i as [|i]; simpl; [lia|].
           rewrite lookup_replicate_2 by lia. lia.
        -- destruct i as [|i]; simpl; [lia|].
           rewrite lookup_ge_None_2 by (rewrite length_replicate; lia). lia.
      * destruct tk; simpl in *; tok.
    + apply layered_snoc; [|done]. intros tk i T Hle.
      apply (spends_unborn _ m tk i H T Hle).
Qed.

Lemma loadComponentModules_live tk mm cb m :
  live tk (loadComponentModules mm cb m) = owes tk cb + live tk m.
Proof. unfold loadComponentModules. by rewrite live_pend_snoc. Qed.

Lemma loadComponentModules_credit tk mm cb m :
  credit (loadComponentModules mm cb m) tk = credit m tk.
Proof.
  unfold loadComponentModules. destruct tk; simpl; try done.
  by rewrite fired_snoc, Nat.add_0_r.
Qed.

Lemma frame_touch_live tk fr f f' m :
  acts m !! fr = Some (CFrame f) → f_cb f' = f_cb f → f_count f' = f_count f →
  live tk (set_acts (fun h => <[fr := CFrame f']> h) m) = live tk m.
Proof.
  intros E Hcb Hn.
  pose proof (live_acts_insert tk fr _ (CFrame f') m E) as P.
  unfold owes_cell in P. simpl in P. rewrite Hcb, Hn in P. lia.
Qed.

Lemma task_credit tk fr index comp inst f m :
  spends (KTask fr index comp) m → acts m !! fr = Some (CFrame f) →
  credit (set_acts (fun h =>
            <[fr := CFrame (set_frame_instances
                              (<[index := Some inst]> (f_instances f)) f)]> h) m) tk
  = (credit m tk - (if decide (tk = TTask fr index) then 1 else 0))%Z.
Proof.
  intros H E. rewrite (credit_acts_insert _ _ _ _ _ E).
  specialize (H (TTask fr index)). simpl in H. rewrite E in H. simpl in H.
  destruct tk as [n|fr'|fr' i|g t]; simpl; tok; rewrite ?E; simpl; try lia.
  - destruct (f_instances f !! index) as [[v|]|] eqn:Ei; try lia.
    rewrite list_lookup_insert_eq by eauto using lookup_lt_Some. lia.
  - assert (i ≠ index) by congruence.
    rewrite list_lookup_insert_ne by done. lia.
Qed.

Lemma task_inv fr index comp inst m m' :
  spends (KTask fr index comp) m → layered m →
  task getDependentModules getDepsFromSetters fr index comp inst m = Some m' →
  inv m'.
Proof.
  intros H L E. unfold task in E.
  destruct (acts m !! fr) as [[f|]|] eqn:Ef; try done.
  set (f' := set_frame_instances (<[index := Some inst]> (f_instances f)) f) in E.
  set (m1 := set_acts (fun h => <[fr := CFrame f']> h) m) in E.
  assert (∀ tk, live tk m1 = live tk m) as Hl
    by (intros; by apply (frame_touch_live _ _ f)).
  assert (∀ tk, credit m1 tk
                = (credit m tk - (if decide (tk = TTask fr index) then 1 else 0))%Z)
    as Hc by (intros; by apply (task_credit _ _ _ comp)).
  assert (layered m1) as L1 by (by apply (layered_insert _ (CFrame f))).
  destruct comp as [l|]; simplify_eq.
  - destruct (comps (ctx m1) !! l) as [c|] eqn:Ec; [|done].
    match type of E with
    | (let '(_, _) := ?p in _) = _ => destruct p as [mm m2] eqn:Ep
    end.
    simplify_eq.
    assert (same_accounts m1 m2) as S.
    { destruct (setterDeps c), (auto c); simplify_eq; by repeat split. }
    split.
    + intros tk. rewrite loadComponentModules_live, loadComponentModules_credit.
      rewrite (same_accounts_live _ _ _ S), (same_accounts_credit _ _ _ S).
      rewrite Hl, Hc. specialize (H tk). simpl in *. tok.
    + unfold layered, loadComponentModules. simpl.
      destruct S as (_&_&->&_). apply L1.
  - split; [|done]. intros tk. rewrite live_push.
    change (credit _ tk) with (credit m1 tk). rewrite Hl, Hc.
    specialize (H tk). simpl in *. tok.
Qed.

Lemma done_inv fr m m' :
  spends (KDone fr) m → layered m → done fr m = Some m' → inv m'.
Proof.
  intros H L E. unfold done in E.
  destruct (acts m !! fr) as [[f|]|] eqn:Ef; try done.
  set (f' := set_frame_count (f_count f - 1) f) in E.
  set (m1 := set_acts (fun h => <[fr := CFrame f']> h) m) in E.
  assert (layered m1) as L1 by (by apply (layered_insert _ (CFrame f))).
  assert (1 ≤ f_count f)%Z as Hpos.
  { specialize (H (TDone fr)). simpl in H. rewrite Ef in H. simpl in H.
    case_decide; [lia|done]. }
  assert (∀ tk, live tk m1 + owes_cell tk (CFrame f)
                = live tk m + owes_cell tk (CFrame f')) as Hl
    by (intros; by apply live_acts_insert).
  assert (∀ tk, credit m1 tk
                = if decide (token_cell tk = Some fr) then cell_credit tk (CFrame f')
                  else credit m tk) as Hc
    by (intros; by apply (credit_acts_insert _ _ (CFrame f))).
  assert (∀ tk, owes_cell tk (CFrame f) = owes tk (f_cb f)) as Hold.
  { intros. unfold owes_cell. simpl. destruct (Z.ltb_spec 0 (f_count f)); [done|lia]. }
  destruct (Z.eqb_spec (f_count f - 1) 0) as [Hz|Hnz]; simplify_eq.
  - split; [|done]. intros tk. rewrite live_push.
    change (credit _ tk) with (credit m1 tk). rewrite Hc.
    specialize (Hl tk). specialize (H tk). rewrite Hold in Hl.
    assert (owes_cell tk (CFrame f') = 0) as Hnew.
    { unfold owes_cell. simpl. destruct (Z.ltb_spec 0 (f_count f - 1)); [lia|done]. }
    rewrite Hnew in Hl. simpl in *.
    destruct tk; simpl in *; repeat (case_decide; simplify_eq/=);
      rewrite ?Ef in H; simpl in H; lia.
  - split; [|done]. intros tk. rewrite Hc.
    specialize (Hl tk). specialize (H tk). rewrite Hold in Hl.
    assert (owes_cell tk (CFrame f') = owes tk (f_cb f)) as Hnew.
    { unfold owes_cell. simpl. destruct (Z.ltb_spec 0 (f_count f - 1)); [done|lia]. }
    rewrite Hnew in Hl. simpl in *.
    destruct tk; simpl in *; repeat (case_decide; simplify_eq/=);
      rewrite ?Ef in H; simpl in H; lia.
Qed.

Lemma injected_inv g t m m' :
  spends (KInjected g t) m → layered m → injected g t m = Some m' → inv m'.
Proof.
  intros H L E. unfold injected in E.
  destruct (acts m !! g) as [[|c]|] eqn:Eg; try done.
  set (c' := set_flag t c) in E.
  set (m1 := set_acts (fun h => <[g := CGate c']> h) m) in E.
  assert (g_cb c' = g_cb c) as Hcb by (by destruct t).
  assert (layered m1) as L1 by (by apply (layered_insert _ (CGate c))).
  assert (flag t c = false) as Hf.
  { specialize (H (TInj g t)). simpl in H. rewrite Eg in H. simpl in H.
    destruct (flag t c); [|done]. case_decide; [lia|done]. }
  assert (∀ tk, live tk m1 + owes_cell tk (CGate c)
                = live tk m + owes_cell tk (CGate c')) as Hl
    by (intros; by apply live_acts_insert).
  assert (∀ tk, credit m1 tk
                = if decide (token_cell tk = Some g) then cell_credit tk (CGate c')
                  else credit m tk) as Hc
    by (intros; by apply (credit_acts_insert _ _ (CGate c))).
  assert (∀ tk, owes_cell tk (CGate c) = owes tk (g_cb c)) as Hold.
  { intros. unfold owes_cell. simpl.
    destruct t; simpl in Hf; rewrite Hf; simpl; by rewrite ?andb_false_r. }
  assert (∀ tk, owes_cell tk (CGate c')
                = if g_prop c' && g_setter c' then 0 else owes tk (g_cb c)) as Hnew.
  { intros. unfold owes_cell. simpl. rewrite Hcb. by destruct (g_prop c' && g_setter c'). }
  assert (∀ t', flag t' c' = if decide (t' = t) then true else flag t' c) as Hflag.
  { intros t'. destruct t, t'; simpl; by tok. }
  assert (inv (if g_prop c' && g_setter c' then push (ACall (g_cb c') []) m1 else m1))
    as Hgoal; [|by destruct (g_prop c' && g_setter c'); simplify_eq].
  destruct (g_prop c' && g_setter c') eqn:Eb.
  - split; [|done]. intros tk. rewrite live_push.
    change (credit _ tk) with (credit m1 tk). rewrite Hc.
    specialize (Hl tk). specialize (H tk). rewrite Hold, Hnew in Hl.
    simpl in *. rewrite Hcb.
    destruct tk as [| | |g0 t0]; simpl in *; repeat (case_decide; simplify_eq/=);
      rewrite ?Eg in H; simpl in H; rewrite ?Hflag, ?Hf in *; tok.
  - split; [|done]. intros tk. rewrite Hc.
    specialize (Hl tk). specialize (H tk). rewrite Hold, Hnew in Hl.
    simpl in *.
    destruct tk as [| | |g0 t0]; simpl in *; repeat (case_decide; simplify_eq/=);
      rewrite ?Eg in H; simpl in H; rewrite ?Hflag, ?Hf in *; tok.
Qed.

Lemma injectDeps_inv inst l cb m m' :
  spends (KInjectDeps inst l cb) m → layered m →
  injectDeps getDependentModules inst l cb m = Some m' → inv m'.
Proof.
  intros H L E. unfold injectDeps, injectPropDependencies in E.
  set (c := CGate {| g_prop := false; g_setter := false; g_cb := cb |}) in E.
  set (g := length (acts m)) in E.
  set (m1 := set_acts (fun h => h ++ [c]) m) in E.
  simpl in E. destruct (comps (ctx m) !! l) as [d|]; [|done]. simplify_eq.
  assert (layered m1) as L1.
  { apply layered_snoc; [|done]. intros tk i T Hle.
    apply (spends_unborn _ m tk i H T Hle). }
  split.
  - intros tk. rewrite getComponent_live, getComponent_credit, live_push.
    change (credit _ tk) with (credit m1 tk).
    unfold m1. rewrite live_acts_snoc, credit_acts_snoc.
    pose proof (spends_unborn _ m tk g H) as U.
    specialize (H tk). simpl in *.
    assert (owes_cell tk c = owes tk cb) as -> by done.
    assert (acts m !! g = None) as En by (apply lookup_ge_None_2; unfold g; lia).
    fold g.
    destruct tk; simpl in *; repeat (case_decide; simplify_eq/=);
      rewrite ?En in H; simpl in H;
      try (specialize (U eq_refl (le_n _))); try lia.
    all: destruct t; simplify_eq/=; lia.
  - apply getComponent_layered. apply L1.
Qed.

Lemma call_inv k args m m' :
  spends k m → layered m → call k args m = Some m' → inv m'.
Proof.
  intros H L E.
  destruct k as [n|ids cb|fr index comp|fr|inst l cb|g t|inst deps cb|inst deps props cb];
    simpl in E.
  - simplify_eq. by apply user_inv.
  - by eapply createInstances_inv.
  - by eapply task_inv.
  - by eapply done_inv.
  - by eapply injectDeps_inv.
  - by eapply injected_inv.
  - destruct (set_from_deps inst deps args (length deps) m) as [m1|] eqn:E1;
      simplify_eq/=.
    apply set_from_deps_same in E1. split.
    + intros tk. rewrite live_push.
      change (credit _ tk) with (credit m1 tk).
      rewrite (same_accounts_live _ _ _ E1), (same_accounts_credit _ _ _ E1).
      apply (H tk).
    + change (layered m1). by apply (same_accounts_layered m).
  - destruct (objs (ctx m) !! props) as [kv|]; [|done].
    destruct (set_from_props inst deps args kv m) as [m1|] eqn:E1;
      simplify_eq/=.
    apply set_from_props_same in E1. split.
    + intros tk. rewrite live_push.
      change (credit _ tk) with (credit m1 tk).
      rewrite (same_accounts_live _ _ _ E1), (same_accounts_credit _ _ _ E1).
      apply (H tk).
    + change (layered m1). by apply (same_accounts_layered m).
Qed.

Lemma createInstance_accounts c k m m' :
  createInstance c k m = Some m' →
  (∀ tk, live tk m' = owes tk k + live tk m)
  ∧ (∀ tk, credit m' tk = credit m tk) ∧ acts m' = acts m.
Proof.
  unfold createInstance. intros E.
  repeat (case_match; simplify_eq/=); repeat split; try done; intros tk.
  all: by rewrite ?live_push, ?live_pend_snoc.
Qed.

Lemma lift_accounts {A} (c : M A) m a m' :
  lift c m = Some (a, m') → same_accounts m m'.
Proof.
  unfold lift. intros E. destruct (c (ctx m)); simplify_eq. by repeat split.
Qed.

Lemma tick_inv m m' : inv m → tick m = Some m' → inv m'.
Proof.
  intros [B L] E. unfold tick in E.
  destruct (agenda m) as [|a q] eqn:Ea; [by simplify_eq|].
  set (m0 := set_agenda (fun _ => q) m) in E.
  assert (∀ tk, Z.of_nat (owes_action tk a + live tk m0) = credit m0 tk) as H.
  { intros tk. change (credit m0 tk) with (credit m tk).
    rewrite <- (B tk). by rewrite (live_pop tk a q m Ea). }
  assert (layered m0) as L0 by done.
  destruct a as [k args|fr [|i]|inst l g].
  - by eapply call_inv.
  - simplify_eq. split; [|done]. intros tk. rewrite <- (H tk).
    destruct tk; simpl; tok.
  - destruct (acts m0 !! fr) as [[f|]|] eqn:Ef; try done.
    apply createInstance_accounts in E as (Hl & Hc & Ha). split.
    + intros tk. rewrite Hl, Hc, live_push.
      change (credit _ tk) with (credit m0 tk). rewrite <- (H tk).
      destruct tk; simpl; tok.
      exfalso.
      match goal with
      | F : TTask _ ?a ≠ TTask _ ?b |- _ => apply F; f_equal; lia
      end.
    + unfold layered. rewrite Ha. apply L0.
  - unfold injectSetterDependencies in E.
    destruct (comps (ctx m0) !! l) as [c|]; [|done]. simplify_eq. split.
    + intros tk. rewrite getComponent_live, getComponent_credit.
      rewrite <- (H tk). done.
    + by apply getComponent_layered.
Qed.

Lemma answer_inv i r m m' : inv m → answer i r m = Some m' → inv m'.
Proof.
  intros [B L] E. unfold answer in E.
  destruct (pend m !! i) as [p|] eqn:Ep; [|by simplify_eq].
  set (m0 := set_pend (delete i) m) in E.
  assert (∀ tk, Z.of_nat (owes_pending tk p + live tk m0) = credit m0 tk) as H.
  { intros tk. change (credit m0 tk) with (credit m tk).
    rewrite <- (B tk). by rewrite (live_pend_delete tk i p m Ep). }
  destruct p as [modules mm cb|l k], r as [mods|meths]; try by simplify_eq.
  - unfold loaded in E.
    destruct (lift (bind_modules modules mm mods (length mods)) m0)
      as [[[] m1]|] eqn:El; simplify_eq.
    apply lift_accounts in El. split.
    + intros tk. rewrite live_push. change (credit _ tk) with (credit m1 tk).
      rewrite (same_accounts_live _ _ _ El), (same_accounts_credit _ _ _ El).
      apply (H tk).
    + change (layered m1). by apply (same_accounts_layered m0).
  - unfold constructed in E.
    destruct (comps (ctx m0) !! l) as [c|]; [|done].
    match type of E with
    | Some (push _ ?x) = _ => remember x as m2 eqn:Em2
    end.
    assert (same_accounts m0 m2) as S.
    { subst m2. destruct (String.eqb (scope c) "singleton"); repeat split; done. }
    simplify_eq. split.
    + intros tk. rewrite live_push.
      match goal with |- _ = credit (push _ ?x) tk => change (credit _ tk) with (credit x tk) end.
      rewrite (same_accounts_live _ _ _ S), (same_accounts_credit _ _ _ S).
      apply (H tk).
    + match goal with |- layered (push _ ?x) => change (layered x) end.
      by apply (same_accounts_layered m0).
Qed.

Lemma request_inv a m :
  inv m →
  inv (fst (getComponent a (KUser (length (requests m)))
              (set_requests (fun r => r ++ [a]) m))).
Proof.
  intros [B L]. split; [|by apply getComponent_layered].
  intros tk. rewrite getComponent_live, getComponent_credit, live_set_requests.
  specialize (B tk).
  destruct tk as [n| | |]; simpl in *; try done.
  rewrite length_app. simpl. tok.
  assert (n = length (requests m)) by lia. congruence.
Qed.

Lemma step_inv c m m' : inv m → step c m = Some m' → inv m'.
Proof.
  intros I E. destruct c as [|i r|a]; simpl in E.
  - by eapply tick_inv.
  - by eapply answer_inv.
  - simplify_eq. by apply request_inv.
Qed.

Lemma exec_inv s m m' : inv m → exec s m = Some m' → inv m'.
Proof.
  revert m. induction s as [|c s IH]; intros m I E; simpl in E.
  - by simplify_eq.
  - destruct (step c m) as [m1|] eqn:E1; [|done]. simpl in E.
    eauto using step_inv.
Qed.

Lemma boot_inv st : inv (boot st).
Proof.
  split.
  - intros tk. destruct tk; simpl; try done.
  - intros j c tk i E. done.
Qed.

(** ** Quiescence *)

Lemma sum_list_with_zero {A} (f : A → nat) (l : list A) :
  (∀ i x, l !! i = Some x → f x = 0) → sum_list_with f l = 0.
Proof.
  induction l as [|y l IH]; intros H; simpl; [done|].
  rewrite (H 0 y eq_refl), IH; [done|]. intros i x E. apply (H (S i) x E).
Qed.

Lemma sum_list_with_ge {A} (f : A → nat) (l : list A) i x :
  l !! i = Some x → f x ≤ sum_list_with f l.
Proof.
  intros E. rewrite (sum_list_with_delete f l i x E). lia.
Qed.

Lemma live_ge_cell tk j c m : acts m !! j = Some c → owes_cell tk c ≤ live tk m.
Proof.
  intros E. unfold live.
  pose proof (sum_list_with_ge (owes_cell tk) _ _ _ E). lia.
Qed.

Lemma credit_zero_released j c m :
  acts m !! j = Some c →
  (∀ tk, token_cell tk = Some j → credit m tk = 0%Z) → holds c = false.
Proof.
  intros E H. destruct c as [f|g]; simpl.
  - specialize (H (TDone j) eq_refl). simpl in H. rewrite E in H. simpl in H.
    rewrite H. done.
  - pose proof (H (TInj j OfProp) eq_refl) as H1.
    pose proof (H (TInj j OfSetter) eq_refl) as H2.
    simpl in H1, H2. rewrite E in H1, H2. simpl in H1, H2.
    destruct (g_prop g), (g_setter g); simpl in *; done.
Qed.

Lemma quiescent_settled m : inv m → quiescent m → settled m.
Proof.
  intros [B L] [Qa Qp].
  assert (∀ d j c, acts m !! j = Some c → length (acts m) ≤ j + d → holds c = false)
    as P.
  { induction d as [|d IH]; intros j c E Hle.
    - apply lookup_lt_Some in E. lia.
    - apply (credit_zero_released j c m E). intros tk T.
      rewrite <- (B tk). unfold live. rewrite Qa, Qp. simpl.
      rewrite sum_list_with_zero; [done|]. intros j' c' E'.
      unfold owes_cell. destruct (holds c') eqn:Hh; [|done].
      destruct (decide (j' ≤ j)).
      + by apply (L j' c' tk j).
      + rewrite (IH j' c' E') in Hh; [done|lia]. }
  intros j c E. apply (P (length (acts m)) j c E). lia.
Qed.

Lemma settled_idle tk m : quiescent m → settled m → live tk m = 0.
Proof.
  intros [Qa Qp] S. unfold live. rewrite Qa, Qp. simpl.
  apply sum_list_with_zero. intros j c E. unfold owes_cell. by rewrite (S j c E).
Qed.



Lemma reachable_inv st s m : exec s (boot st) = Some m → inv m.
Proof. apply exec_inv, boot_inv. Qed.

Lemma inv_fired_le n m : inv m → fired n (log m) ≤ 1.
Proof.
  intros [B _]. specialize (B (TUser n)). simpl in B. case_decide; lia.
Qed.

Lemma inv_frame_count fr f m :
  inv m → acts m !! fr = Some (CFrame f) →
  f_count f = Z.of_nat (live (TDone fr) m).
Proof.
  intros [B _] E. specialize (B (TDone fr)). simpl in B. rewrite E in B. done.
Qed.

Lemma inv_frame_user fr f n m :
  inv m → acts m !! fr = Some (CFrame f) → f_cb f = KUser n →
  (0 < f_count f)%Z → fired n (log m) = 0.
Proof.
  intros [B _] E Hcb Hpos. specialize (B (TUser n)).
  pose proof (live_ge_cell (TUser n) fr _ m E) as G.
  unfold owes_cell in G. simpl in G, B. rewrite Hcb in G. simpl in G.
  destruct (Z.ltb_spec 0 (f_count f)); [|lia].
  repeat case_decide; try done; lia.
Qed.

Lemma inv_quiescent_fired n m :
  inv m → quiescent m → n < length (requests m) → fired n (log m) = 1.
Proof.
  intros I Q Hn. pose proof (settled_idle (TUser n) m Q (quiescent_settled m I Q)) as Z.
  destruct I as [B _]. specialize (B (TUser n)). simpl in B.
  case_decide; lia.
Qed.

Lemma inv_quiescent_count fr f m :
  inv m → quiescent m → acts m !! fr = Some (CFrame f) → f_count f = 0%Z.
Proof.
  intros I Q E. rewrite (inv_frame_count fr f m I E).
  by rewrite (settled_idle (TDone fr) m Q (quiescent_settled m I Q)).
Qed.

(** C4. Under every schedule, the callback of a request is invoked at most
    once. The counter of an activation of [createInstances] starts at the
    number of ids, each call of [done] takes one off and calls [cb] when
    zero is reached; at every moment it equals the number of pipelines of
    the activation still running, and the caller's callback has not been
    invoked while it is positive. Once nothing is left to run and every
    external call has been answered, every callback has been invoked
    exactly once and every counter is zero. *)
Theorem C4_callback_once_after_countdown st s m :
  exec s (boot st) = Some m →
  (∀ n, fired n (log m) ≤ 1)
  ∧ (∀ fr f, acts m !! fr = Some (CFrame f) →
       f_count f = Z.of_nat (live (TDone fr) m)
       ∧ ∀ n, f_cb f = KUser n → (0 < f_count f)%Z → fired n (log m) = 0)
  ∧ (quiescent m →
       (∀ n, n < length (requests m) → fired n (log m) = 1)
       ∧ ∀ fr f, acts m !! fr = Some (CFrame f) → f_count f = 0%Z)
  ∧ (∀ k ids cb m1,
       createInstances (k :: ids) cb m1
       = Some (push (ACreateLoop (length (acts m1)) (length (k :: ids)))
                 (set_acts (fun h => h ++
                    [CFrame {| f_ids := k :: ids; f_cb := cb;
                               f_instances := replicate (length (k :: ids)) None;
                               f_count := Z.of_nat (length (k :: ids)) |}]) m1)))
  ∧ (∀ fr f m1, acts m1 !! fr = Some (CFrame f) →
       ∃ m2, done fr m1 = Some m2
         ∧ acts m2 = <[fr := CFrame (set_frame_count (f_count f - 1) f)]> (acts m1)
         ∧ agenda m2 = if (f_count f - 1 =? 0)%Z
                       then ACall (f_cb f) (arguments (f_instances f)) :: agenda m1
                       else agenda m1).
Proof.
  intros E. pose proof (reachable_inv st s m E) as I.
  split; [|split; [|split; [|split]]].
  - intros n. by apply inv_fired_le.
  - intros fr f Ef. split; [by apply inv_frame_count|].
    intros n. by apply (inv_frame_user fr).
  - intros Q. split.
    + intros n. by apply inv_quiescent_fired.
    + intros fr f. by apply inv_quiescent_count.
  - done.
  - intros fr f m1 Ef. unfold done. rewrite Ef.
    destruct (f_count f - 1 =? 0)%Z; eauto.
Qed.

(** ** Positions are preserved by every move *)












(** ** The loader callback only binds creators *)

Lemma bind_Ok {A B} (c : M A) (k : A → M B) st b st'' :
  bind c k st = Ok b st'' → ∃ a st', c st = Ok a st' ∧ k a st' = Ok b st''.
Proof. unfold bind. destruct (c st); [eauto|done|done]. Qed.

Ltac inv_bind H :=
  let a := fresh "a" in
  let st := fresh "st" in
  let E := fresh "E" in
  apply bind_Ok in H as (a & st & E & H).

Lemma set_creator_same c : set_creator (creator c) c = c.
Proof. by destruct c. Qed.

Lemma set_creator_twice cr cr' c : set_creator cr (set_creator cr' c) = set_creator cr c.
Proof. done. Qed.

Lemma createCreator_spec l module st st' :
  createCreator l module st = Ok tt st' →
  ∃ c cr, comps st !! l = Some c
          ∧ st' = set_comps (fun h => <[l := set_creator cr c]> h) st.
Proof.
  unfold createCreator, bind, read_comp, deref, write_comp, ret, throw. intros H.
  destruct (comps st !! l) as [c|] eqn:Ec; [|done]. exists c.
  repeat (case_match; simplify_eq/=); eexists; (split; [done|]);
    unfold set_comps; simpl; rewrite ?list_insert_insert_eq; done.
Qed.

Lemma rebinds_refl st : rebinds st st.
Proof.
  repeat split; try done. intros l. destruct (comps st !! l) as [c|]; [|done].
  by rewrite set_creator_same.
Qed.

Lemma rebinds_trans st1 st2 st3 : rebinds st1 st2 → rebinds st2 st3 → rebinds st1 st3.
Proof.
  intros (?&?&?&?&?&R1) (?&?&?&?&?&R2). repeat split; try congruence.
  intros l. specialize (R1 l). specialize (R2 l).
  destruct (comps st1 !! l) as [c1|], (comps st2 !! l) as [c2|],
    (comps st3 !! l) as [c3|]; try done.
  destruct R1 as [E1 F1], R2 as [E2 F2]. split.
  - rewrite E2, E1. done.
  - intros F. rewrite <- (F1 F). apply F2. by rewrite (F1 F).
Qed.

Lemma createCreator_rebinds l module st st' :
  (∀ c, comps st !! l = Some c → is_function (creator c) = false) →
  createCreator l module st = Ok tt st' → rebinds st st'.
Proof.
  intros Hnf H. apply createCreator_spec in H as (c & cr & Ec & ->).
  repeat split; try done. intros l'.
  change (comps (set_comps _ st)) with (<[l := set_creator cr c]> (comps st)).
  destruct (decide (l' = l)) as [->|Hne].
  - rewrite list_lookup_insert_eq by eauto using lookup_lt_Some.
    rewrite Ec. split; [done|]. rewrite (Hnf c Ec). done.
  - rewrite list_lookup_insert_ne by done.
    destruct (comps st !! l') as [c'|]; [|done]. by rewrite set_creator_same.
Qed.

Lemma bind_components_rebinds cs j module st st' :
  bind_components cs j module st = Ok tt st' → rebinds st st'.
Proof.
  revert st. induction j as [|j IH]; intros st H; simpl in H.
  - unfold ret in H. simplify_eq. apply rebinds_refl.
  - apply bind_Ok in H as ([] & st1 & E & H).
    apply IH in H. eapply rebinds_trans; [|apply H].
    destruct (cs !! j) as [l|]; [|done].
    apply bind_Ok in E as (c & st2 & Ec & E).
    unfold read_comp, deref in Ec.
    destruct (comps st !! l) as [c'|] eqn:El; [|done]. simplify_eq.
    destruct (is_function (creator c)) eqn:Ef.
    + unfold ret in E. simplify_eq. apply rebinds_refl.
    + eapply createCreator_rebinds; [|apply E]. congruence.
Qed.

Lemma bind_modules_rebinds modules mm mods i st st' :
  bind_modules modules mm mods i st = Ok tt st' → rebinds st st'.
Proof.
  revert st. induction i as [|i IH]; intros st H; simpl in H.
  - unfold ret in H. simplify_eq. apply rebinds_refl.
  - apply bind_Ok in H as ([] & st1 & E & H).
    apply IH in H. eapply rebinds_trans; [|apply H].
    destruct (mods !! i) as [module|].
    + destruct (modules !! i ≫= (fun k => assoc_get k mm)) as [cs|]; [|done].
      by eapply bind_components_rebinds.
    + unfold ret in E. simplify_eq. apply rebinds_refl.
Qed.







































(** ** What the callbacks receive *)






(** ** The injection gate *)

Lemma inv_gate_live g c t m :
  inv m → acts m !! g = Some (CGate c) →
  live (TInj g t) m = if flag t c then 0 else 1.
Proof.
  intros [B _] E. specialize (B (TInj g t)). simpl in B. rewrite E in B.
  simpl in B. destruct (flag t c); lia.
Qed.

(** C9. [injectDeps] creates a gate with both flags unset, starts property
    injection and, as its next statement, setter injection: both requests
    are outstanding before either is answered. [injected] sets the flag of
    its type and calls the completion callback exactly when both flags are
    set. Under every schedule, a gate has one closure left to signal each
    flag that is still unset and none for a flag that is set, so that each
    flag is signalled once and the completion callback, which the gate
    keeps until then, is called once, by the second signal; when nothing
    is left to run, both flags of every gate are set. *)
Theorem C9_injection_gate st s m :
  exec s (boot st) = Some m →
  (∀ inst l cb c m1,
     comps (ctx m1) !! l = Some c →
     ∃ m2 m3 mm mm',
       call (KInjectDeps inst l cb) [] m1 = Some m2
       ∧ acts m2 = acts m1
                   ++ [CGate {| g_prop := false; g_setter := false; g_cb := cb |}]
       ∧ agenda m2 = AInjectSetter inst l (length (acts m1)) :: agenda m1
       ∧ pend m2 = pend m1
           ++ [PLoad (mm_keys mm) mm
                 (KCreateInstances (normalize (deps_arg (propDeps c)))
                    (KPropCb inst (propDeps c) (properties c)
                       (KInjected (length (acts m1)) OfProp)))]
       ∧ tick m2 = Some m3
       ∧ acts m3 = acts m2 ∧ agenda m3 = agenda m1
       ∧ pend m3 = pend m2
           ++ [PLoad (mm_keys mm') mm'
                 (KCreateInstances (default [] (setterDeps c))
                    (KSetterCb inst (default [] (setterDeps c))
                       (KInjected (length (acts m1)) OfSetter)))])
  ∧ (∀ g c t m1,
       acts m1 !! g = Some (CGate c) →
       injected g t m1
       = Some (let m' := set_acts (fun h => <[g := CGate (set_flag t c)]> h) m1 in
               if g_prop (set_flag t c) && g_setter (set_flag t c)
               then push (ACall (g_cb c) []) m' else m'))
  ∧ (∀ g c t, acts m !! g = Some (CGate c) →
       live (TInj g t) m = if flag t c then 0 else 1)
  ∧ (∀ g c tk, acts m !! g = Some (CGate c) → g_prop c && g_setter c = false →
       owes tk (g_cb c) ≤ live tk m)
  ∧ (quiescent m → ∀ g c, acts m !! g = Some (CGate c) →
       g_prop c = true ∧ g_setter c = true).
Proof.
  intros E. pose proof (reachable_inv st s m E) as I.
  split; [|split; [|split; [|split]]].
  - intros inst l cb c m1 Ec. simpl.
    unfold injectDeps, injectPropDependencies. simpl. rewrite Ec.
    set (m1' := push _ (set_acts _ m1)).
    destruct (getComponent_shape (deps_arg (propDeps c))
                (KPropCb inst (propDeps c) (properties c)
                   (KInjected (length (acts m1)) OfProp)) m1')
      as (mm & st1 & Hm2 & _ & Hcs & _).
    eexists. 
    assert (tick (fst (getComponent (deps_arg (propDeps c))
                (KPropCb inst (propDeps c) (properties c)
                   (KInjected (length (acts m1)) OfProp)) m1'))
            = Some (fst (getComponent (IdsArray (default [] (setterDeps c)))
                (KSetterCb inst (default [] (setterDeps c))
                   (KInjected (length (acts m1)) OfSetter))
                (set_agenda (fun _ => agenda m1)
                   (fst (getComponent (deps_arg (propDeps c))
                      (KPropCb inst (propDeps c) (properties c)
                         (KInjected (length (acts m1)) OfProp)) m1')))))) as Ht.
    { unfold tick. rewrite Hm2. simpl.
      unfold injectSetterDependencies. simpl. rewrite Hcs. simpl. rewrite Ec. done. }
    destruct (getComponent_shape (IdsArray (default [] (setterDeps c)))
                (KSetterCb inst (default [] (setterDeps c))
                   (KInjected (length (acts m1)) OfSetter))
                (set_agenda (fun _ => agenda m1)
                   (fst (getComponent (deps_arg (propDeps c))
                      (KPropCb inst (propDeps c) (properties c)
                         (KInjected (length (acts m1)) OfProp)) m1'))))
      as (mm' & st2 & Hm3 & _).
    eexists. exists mm, mm'. split; [done|].
    rewrite Ht. rewrite Hm3. rewrite Hm2. simpl. done.
  - intros g c t m1 Eg. unfold injected. rewrite Eg. simpl.
    assert (g_cb (set_flag t c) = g_cb c) as -> by (by destruct t).
    by destruct (g_prop (set_flag t c) && g_setter (set_flag t c)).
  - intros g c t Eg. by apply inv_gate_live.
  - intros g c tk Eg Hf. pose proof (live_ge_cell tk g _ m Eg) as G.
    unfold owes_cell in G. simpl in G. by rewrite Hf in G.
  - intros Q g c Eg.
    pose proof (quiescent_settled m I Q g _ Eg) as Hh. simpl in Hh.
    apply negb_false_iff, andb_true_iff in Hh. done.
Qed.

(** C2, as amended. [getComponent([], cb)] calls the module loader, once,
    with an empty list of module names; when the loader answers, with no
    module, [createInstances] calls [cb] with no argument, and the loader
    is not called again. *)
Theorem C2_empty_request_calls_loader_once cb m :
  let m1 := fst (getComponent (IdsArray []) cb m) in
  snd (getComponent (IdsArray []) cb m) = RetThis
  ∧ log m1 = log m ++ [EvLoad []]
  ∧ pend m1 = pend m ++ [PLoad [] [] (KCreateInstances [] cb)]
  ∧ agenda m1 = agenda m
  ∧ ∃ m2 m3,
      answer (length (pend m)) (RLoaded []) m1 = Some m2
      ∧ agenda m2 = ACall (KCreateInstances [] cb) [] :: agenda m
      ∧ tick m2 = Some m3
      ∧ agenda m3 = ACall cb [] :: agenda m
      ∧ pend m3 = pend m ∧ log m3 = log m1
      ∧ ∀ n, cb = KUser n →
          ∃ m4, tick m3 = Some m4 ∧ log m4 = log m ++ [EvLoad []; EvCallback n []]
                ∧ agenda m4 = agenda m.
Proof.
  simpl. split; [done|]. split; [done|]. split; [done|]. split; [done|].
  unfold answer. simpl. rewrite lookup_app_r by done. rewrite Nat.sub_diag. simpl.
  unfold loaded, lift. simpl. eexists. eexists. split; [done|].
  split; [done|]. unfold tick. simpl. split; [done|]. split; [done|].
  split.
  { unfold push, set_agenda, set_ctx, set_pend, loadComponentModules, set_log.
    simpl. rewrite delete_middle. by rewrite app_nil_r. }
  split; [done|]. intros n ->. eexists. simpl. split; [done|].
  split; [|reflexivity].
  transitivity ((log m ++ [EvLoad []]) ++ [EvCallback n []]); [reflexivity|].
  by rewrite <- app_assoc.
Qed.


(** ** The loader bridge *)

Lemma rebinds_dom st st' l :
  rebinds st st' → is_Some (comps st !! l) → is_Some (comps st' !! l).
Proof.
  intros (_&_&_&_&_&R) [c E]. specialize (R l). rewrite E in R.
  destruct (comps st' !! l); [eauto|done].
Qed.

Lemma rebinds_function st st' l c :
  rebinds st st' → comps st !! l = Some c → is_function (creator c) = true →
  comps st' !! l = Some c.
Proof.
  intros (_&_&_&_&_&R) E F. specialize (R l). rewrite E in R.
  destruct (comps st' !! l) as [c'|]; [|done]. destruct R as [_ R].
  by rewrite (R F).
Qed.

Lemma createCreator_total l mv st :
  is_Some (comps st !! l) → ∃ st', createCreator l (Some mv) st = Ok tt st'.
Proof.
  intros [c E].
  unfold createCreator, bind, read_comp, deref, write_comp, ret, throw.
  rewrite E. simpl.
  repeat (case_match; simplify_eq/=); eauto.
Qed.

Lemma bind_components_total cs j mv st :
  (∀ l, l ∈ cs → is_Some (comps st !! l)) → j ≤ length cs →
  ∃ st', bind_components cs j mv st = Ok tt st'.
Proof.
  revert st. induction j as [|j IH]; intros st V Hj; simpl; [by eexists|].
  destruct (lookup_lt_is_Some_2 cs j) as [l El]; [lia|].
  unfold bind at 1. rewrite El.
  assert (∃ st1, (do component <- read_comp l;
                  if is_function (creator component) then ret tt
                  else createCreator l (Some mv)) st = Ok tt st1
                 ∧ rebinds st st1) as (st1 & -> & R).
  { destruct (V l (list_elem_of_lookup_2 _ _ _ El)) as [c Ec].
    unfold bind, read_comp, deref. rewrite Ec.
    destruct (is_function (creator c)) eqn:Ef.
    - eexists. split; [done|apply rebinds_refl].
    - destruct (createCreator_total l mv st) as [st1 E1]; [eauto|].
      exists st1. split; [done|].
      eapply createCreator_rebinds; [|apply E1]. congruence. }
  apply IH; [|lia]. intros l' Hl'. eapply rebinds_dom; [apply R|by apply V].
Qed.

Lemma assoc_get_keys {A} k (mm : list (string * A)) :
  k ∈ map fst mm → is_Some (assoc_get k mm).
Proof.
  induction mm as [|[k' v] mm IH]; simpl; intros Hin.
  - by apply elem_of_nil in Hin.
  - destruct (String.eqb_spec k k'); [eauto|].
    apply elem_of_cons in Hin as [?|?]; [done|by apply IH].
Qed.

Lemma mm_keys_elem mm k : k ∈ mm_keys mm ↔ k ∈ map fst mm.
Proof. unfold mm_keys. apply elem_of_remove_dups. Qed.

Lemma bind_modules_total mm mods i st :
  (∀ k cs l, assoc_get k mm = Some cs → l ∈ cs → is_Some (comps st !! l)) →
  i ≤ length mods → length mods ≤ length (mm_keys mm) →
  ∃ st', bind_modules (mm_keys mm) mm mods i st = Ok tt st'.
Proof.
  revert st. induction i as [|i IH]; intros st V Hi Hm; simpl; [by eexists|].
  destruct (lookup_lt_is_Some_2 mods i) as [mv Ev]; [lia|].
  destruct (lookup_lt_is_Some_2 (mm_keys mm) i) as [k Ek]; [lia|].
  destruct (assoc_get_keys k mm) as [cs Ecs].
  { apply mm_keys_elem. by eapply list_elem_of_lookup_2. }
  unfold bind at 1. rewrite Ev, Ek. simpl. rewrite Ecs.
  destruct (bind_components_total cs (length cs) mv st) as [st1 E1]; [by eauto|done|].
  rewrite E1. apply IH; [|lia|done].
  intros k' cs' l' E' Hl'. eapply rebinds_dom.
  - by eapply bind_components_rebinds.
  - by eapply V.
Qed.

(** C8. [loadComponentModules] calls the loader once, with the keys of the
    map, each once. When the loader answers, the continuation is called
    once, after the creators have been bound, and the loader is not called
    again; a component whose creator is a function is left as it is. The
    callback completes whenever the loader hands over at most one module
    per name, with no module at all in particular. *)
Theorem C8_one_load_then_continue mm cb m :
  let m1 := loadComponentModules mm cb m in
  log m1 = log m ++ [EvLoad (mm_keys mm)]
  ∧ pend m1 = pend m ++ [PLoad (mm_keys mm) mm cb]
  ∧ agenda m1 = agenda m
  ∧ NoDup (mm_keys mm)
  ∧ (∀ k, k ∈ mm_keys mm ↔ k ∈ map fst mm)
  ∧ (∀ mods m2,
       answer (length (pend m)) (RLoaded mods) m1 = Some m2 →
       agenda m2 = ACall cb [] :: agenda m ∧ pend m2 = pend m ∧ log m2 = log m1
       ∧ ∀ l c, comps (ctx m) !! l = Some c → is_function (creator c) = true →
           comps (ctx m2) !! l = Some c)
  ∧ (∀ mods,
       length mods ≤ length (mm_keys mm) →
       (∀ k cs l, assoc_get k mm = Some cs → l ∈ cs → is_Some (comps (ctx m) !! l)) →
       is_Some (answer (length (pend m)) (RLoaded mods) m1)).
Proof.
  simpl. split; [done|]. split; [done|]. split; [done|].
  split; [apply NoDup_remove_dups|]. split; [apply mm_keys_elem|].
  assert (∀ mods,
    answer (length (pend m)) (RLoaded mods) (loadComponentModules mm cb m)
    = match bind_modules (mm_keys mm) mm mods (length mods) (ctx m) with
      | Ok _ st =>
          Some (push (ACall cb [])
                  (set_ctx (fun _ => st)
                     (set_pend (fun _ => pend m)
                        (set_log (fun l => l ++ [EvLoad (mm_keys mm)]) m))))
      | _ => None
      end) as Ha.
  { intros mods. unfold answer, loadComponentModules. simpl.
    rewrite lookup_app_r by done. rewrite Nat.sub_diag. simpl.
    unfold loaded, lift. simpl.
    destruct (bind_modules (mm_keys mm) mm mods (length mods) (ctx m)); try done.
    unfold push, set_agenda, set_ctx, set_pend, set_log. simpl.
    rewrite delete_middle. by rewrite app_nil_r. }
  split.
  - intros mods m2. rewrite Ha.
    destruct (bind_modules (mm_keys mm) mm mods (length mods) (ctx m))
      as [[] st| |] eqn:Eb; try done.
    intros ?. simplify_eq. split; [done|]. split; [done|]. split; [done|].
    intros l c Ec Ef. simpl.
    eapply rebinds_function; [by eapply bind_modules_rebinds|done..].
  - intros mods Hlen V. rewrite Ha.
    destruct (bind_modules_total mm mods (length mods) (ctx m)) as [st' ->];
      eauto.
Qed.

End Steps.

(** ** Runs of concrete containers *)

Lemma fresh_storeb_ok st : fresh_storeb st = true → fresh_store st.
Proof.
  unfold fresh_storeb, fresh_store. rewrite forallb_forall.
  intros H l c E. apply list_elem_of_lookup_2, list_elem_of_In in E.
  specialize (H c E). by destruct (instance c).
Qed.

Lemma ab_store_fresh : fresh_store ab_store.
Proof. apply fresh_storeb_ok. vm_compute. reflexivity. Qed.

Lemma aba_run : run aba_schedule (boot ab_store) = Some aba_final.
Proof. vm_compute. reflexivity. Qed.

Lemma missing_run : run missing_schedule (boot ab_store) = Some missing_final.
Proof. vm_compute. reflexivity. Qed.

Lemma C4_witness :
  run aba_schedule (boot ab_store) = Some aba_final
  ∧ quiescent aba_final
  ∧ fired 0 (log aba_final) = 1.
Proof.
  split; [vm_compute; reflexivity|]. split; [by split|].
  refine (proj1 (proj1 (proj2 (proj2
    (C4_callback_once_after_countdown spec_getDependentModules
       spec_getDepsFromSetters ab_store aba_schedule aba_final _))) _) 0 _).
  - vm_compute. reflexivity.
  - by split.
  - vm_compute. lia.
Defined.




Lemma C9_witness :
  run aba_schedule (boot ab_store) = Some aba_final
  ∧ quiescent aba_final
  ∧ ∀ g c, acts aba_final !! g = Some (CGate c) →
      g_prop c = true ∧ g_setter c = true.
Proof.
  split; [vm_compute; reflexivity|]. split; [by split|].
  refine (proj2 (proj2 (proj2 (proj2
    (C9_injection_gate spec_getDependentModules spec_getDepsFromSetters
       ab_store aba_schedule aba_final _)))) _).
  - vm_compute. reflexivity.
  - by split.
Defined.

(** C2, as stated, fails: [getComponent([], cb)] on an empty container
    calls the loader, with an empty list of module names. *)
Lemma C2_counterexample :
  log (fst (getComponent spec_getDependentModules (IdsArray []) (KUser 0)
              (boot empty_ioc)))
  = [EvLoad []].
Proof. reflexivity. Qed.

(** ** Registration *)

(** C1 fails on the code: the guard of [addComponent] looks up the map of
    ids itself, not the id, and a second registration of [a], in either
    form, replaces the definition of [a] without a warning. *)
Theorem C1_second_registration_replaces :
  (creator <$> getComponentConfig (state_of twice_single) "a")
  = Some (CrFun (FNew (CrFun (FUser 2))))
  ∧ warnings (state_of twice_single) = []
  ∧ (creator <$> getComponentConfig (state_of twice_map) "a")
    = Some (CrFun (FNew (CrFun (FUser 2))))
  ∧ warnings (state_of twice_map) = [].
Proof. vm_compute. repeat split; reflexivity. Qed.





















Lemma getDepsFromArgs_ext st st' a :
  cfgs st' = cfgs st → arrs st' = arrs st →
  getDepsFromArgs st' a = getDepsFromArgs st a.
Proof.
  intros Ec Ea. unfold getDepsFromArgs. rewrite Ea.
  destruct (arrs st !! a) as [xs|]; [|done].
  assert (∀ v, hasReference st' v = hasReference st v) as Hv
    by (intros; unfold hasReference; by rewrite Ec).
  induction xs as [|v xs IH]; [done|].
  change (omap (hasReference st') (v :: xs))
    with (match hasReference st' v with
          | Some y => y :: omap (hasReference st') xs
          | None => omap (hasReference st') xs
          end).
  by rewrite Hv, IH.
Qed.

Lemma getDepsFromProperties_ext st st' p :
  cfgs st' = cfgs st → objs st' = objs st →
  getDepsFromProperties st' p = getDepsFromProperties st p.
Proof.
  intros Ec Eo. unfold getDepsFromProperties. rewrite Eo.
  destruct (objs st !! p) as [kv|]; [|done].
  assert (∀ v, hasReference st' v = hasReference st v) as Hv
    by (intros; unfold hasReference; by rewrite Ec).
  induction kv as [|e kv IH]; [done|].
  change (omap (fun e => hasReference st' (snd e)) (e :: kv))
    with (match hasReference st' (snd e) with
          | Some y => y :: omap (fun e => hasReference st' (snd e)) kv
          | None => omap (fun e => hasReference st' (snd e)) kv
          end).
  by rewrite Hv, IH.
Qed.


(** ** Expansion of anonymous components *)













Lemma hasImport_pending st s c imp :
  hasImport st (VObj c) = Some (c, imp) → cfgs s !! c = cfgs st !! c →
  hasImport s (VObj c) = Some (c, imp).
Proof. unfold hasImport. by intros H ->. Qed.











Lemma rewritten_dep st k marker s ds v v' c imp :
  rewritten st k marker s ds v v' → hasImport st v = Some (c, imp) →
  hasReference s v' = Some (anonymous_id k marker imp)
  ∧ anonymous_id k marker imp ∈ ds.
Proof.
  unfold rewritten. intros R E. rewrite E in R.
  destruct R as (r&cf&->&Er&_&Hin&_). split; [|done].
  unfold hasReference. by rewrite Er.
Qed.





(** The registration of [b] over [owner_store], evaluated: the two
    synthetic ids, the rewritten argument array and property map, and the
    dependency lists derived from them. *)
Lemma owner_final_deps :
  addComponent 4 (IdString "b" 1) owner_store = Ok tt owner_final
  ∧ (anonyDeps <$> getComponentConfig owner_final "b")
    = Some (Some ["^uioc-b-$arg.a"; "^uioc-b-$prop.a"])
  ∧ (argDeps <$> getComponentConfig owner_final "b")
    = Some (Some ["^uioc-b-$arg.a"])
  ∧ (propDeps <$> getComponentConfig owner_final "b")
    = Some (Some ["^uioc-b-$prop.a"])
  ∧ (scope <$> getComponentConfig owner_final "^uioc-b-$arg.a")
    = Some "singleton"
  ∧ (scope <$> getComponentConfig owner_final "^uioc-b-$prop.a")
    = Some "transient".
Proof. vm_compute. repeat split; reflexivity. Qed.




